(** * mysql-auto-db-proxy: the wire-protocol interception engine of main.go

  A shallow embedding of the packet codec, the handshake field extractor
  ([parseDatabaseName]), the USE-command classifier ([isUseCommand],
  [extractDatabaseFromUseCommand]), the provisioning gate
  ([validateDatabaseName], [ensureDatabaseExists]) and the relay session
  ([handleConnection], [forwardWithUseInterception]) of [src/main.go]
  (the current revision, second half of the file), with the properties
  the specification states about them. *)

From Stdlib Require Import String Strings.Byte.
From Stdlib Require Import ZArith Lia Bool List.
Import ListNotations.

(** ** Go values and the runtime operations main.go relies on *)

Module Go.

(** Both [[]byte] and [string] are byte sequences; [string(b)] and
    [[]byte(s)] are the identity on contents. *)
Definition bytes := list byte.

Definition str (s : string) : bytes := list_byte_of_string s.

(** [int(b)] for a byte [b]. *)
Definition int (b : byte) : Z := Z.of_N (Byte.to_N b).

(** The result of running a piece of Go code: it returns, it panics
    (index or slice bounds out of range), or a loop used up the iteration
    budget it was given. *)
Inductive outcome (A : Type) : Type :=
| Ret (a : A)
| Panic
| Diverge.
Arguments Ret {A} a.
Arguments Panic {A}.
Arguments Diverge {A}.

Definition bind {A B} (m : outcome A) (k : A -> outcome B) : outcome B :=
  match m with
  | Ret a => k a
  | Panic => Panic
  | Diverge => Diverge
  end.

(** [s[i]]: panics unless [i < len(s)]. *)
Definition index (s : bytes) (i : nat) : outcome byte :=
  match nth_error s i with
  | Some b => Ret b
  | None => Panic
  end.

(** [s[lo:hi]]: Go panics unless [lo <= hi <= cap(s)]; the model panics
    already when [hi] exceeds [len(s)], which is the stricter check. *)
Definition slice (s : bytes) (lo hi : nat) : outcome bytes :=
  if (lo <=? hi) && (hi <=? length s)
  then Ret (firstn (hi - lo) (skipn lo s))
  else Panic.

Definition isASCII (s : bytes) : bool :=
  forallb (fun b => (Byte.to_N b <? 128)%N) s.

Definition shiftByte (b : byte) (n : N) : byte :=
  match Byte.of_N n with
  | Some c => c
  | None => b
  end.

Definition lowerByte (b : byte) : byte :=
  let n := Byte.to_N b in
  if ((65 <=? n) && (n <=? 90))%N then shiftByte b (n + 32) else b.

Definition upperByte (b : byte) : byte :=
  let n := Byte.to_N b in
  if ((97 <=? n) && (n <=? 122))%N then shiftByte b (n - 32) else b.

Fixpoint HasPrefix (s prefix : bytes) {struct prefix} : bool :=
  match prefix, s with
  | [], _ => true
  | _ :: _, [] => false
  | p :: prefix', c :: s' => Byte.eqb c p && HasPrefix s' prefix'
  end.

(** [strings.Contains(s, substr)]. *)
Fixpoint Contains (s substr : bytes) : bool :=
  HasPrefix s substr ||
  match s with
  | [] => false
  | _ :: s' => Contains s' substr
  end.

(** [a == b] on strings. *)
Fixpoint eqb (a b : bytes) : bool :=
  match a, b with
  | [], [] => true
  | x :: a', y :: b' => Byte.eqb x y && eqb a' b'
  | _, _ => false
  end.

End Go.

Import Go.

Notation "x <- m ;; k" := (bind m (fun x => k))
(at level 61, m at next level, right associativity).

(** ** The proxy *)

Section Proxy.

Set Default Proof Using "Type".

(** [strings.ToLower] and [strings.ToUpper] map an all-ASCII string byte
    by byte; any other string goes through the Unicode case tables of the
    Go library, which are not part of the repository. *)
Variable unicodeToLower : bytes -> bytes.
Variable unicodeToUpper : bytes -> bytes.

(** [strings.ToUpper] maps rune by rune, and a byte outside ASCII either
    belongs to a rune of several bytes or is replaced by U+FFFD, three
    bytes long: four bytes that are not all ASCII never come out as the
    four ASCII characters of ["USE "]. *)
Hypothesis unicodeToUpper_not_USE :
  forall s, isASCII s = false -> length s = 4 ->
            unicodeToUpper s <> str "USE ".

Definition ToLower (s : bytes) : bytes :=
  if isASCII s then map lowerByte s else unicodeToLower s.

Definition ToUpper (s : bytes) : bytes :=
  if isASCII s then map upperByte s else unicodeToUpper s.

(** *** Packets *)

Record MySQLPacket : Type := mkPacket {
  Length : Z;
  SequenceID : Z;
  Payload : bytes;
  FullPacket : bytes
}.

(** *** parseDatabaseName *)

(** [for pos < len(data) && keepGoing(data[pos]) { pos++ }], run for at
    most [fuel] increments. *)
Fixpoint scan (keepGoing : byte -> bool) (fuel : nat) (data : bytes)
         (pos : nat) : outcome nat :=
  if pos <? length data then
    b <- index data pos ;;
    if keepGoing b then
      match fuel with
      | O => Diverge
      | S fuel' => scan keepGoing fuel' data (S pos)
      end
    else Ret pos
  else Ret pos.

Definition notNul (b : byte) : bool := negb (Byte.eqb b x00).

Definition isAuthMethod (field : bytes) : bool :=
  eqb field (str "mysql_native_password") ||
  eqb field (str "caching_sha2_password") ||
  eqb field (str "sha256_password").

(** [len(name) > 0 && !strings.Contains(name, "_client_") &&
     !strings.Contains(name, "\x0c")]. *)
Definition looksLikeDatabase (name : bytes) : bool :=
  (0 <? length name) &&
  negb (Contains name (str "_client_")) &&
  negb (Contains name [x0c]).

(** The three loops get [len(payload)] steps each, which
    [parseDatabaseName_walk] shows to be enough on every payload. *)
Definition parseDatabaseName (packet : MySQLPacket) : outcome bytes :=
  let payload := Payload packet in
  let fuel := length payload in
  if length payload <? 32 then Ret []
  else
    _ <- slice payload 0 (Nat.min 64 (length payload)) ;;
    let pos := 32 in
    let usernameStart := pos in
    pos <- scan notNul fuel payload pos ;;
    _ <- slice payload usernameStart pos ;;
    let pos := pos + 1 in
    if length payload <=? pos then Ret []
    else
      pos <- (if pos <? length payload then
                passwordLen <- index payload pos ;;
                Ret (pos + 1 + Byte.to_nat passwordLen)
              else Ret pos) ;;
      if length payload <=? pos then Ret []
      else if length payload <=? pos then Ret []
      else
        let nextStart := pos in
        nextEnd <- scan notNul fuel payload nextStart ;;
        if nextStart <? nextEnd then
          nextField <- slice payload nextStart nextEnd ;;
          if isAuthMethod nextField then
            let pos := nextEnd + 1 in
            if length payload <=? pos then Ret []
            else
              let dbStart := pos in
              dbEnd <- scan notNul fuel payload dbStart ;;
              if dbStart <? dbEnd then
                databaseName <- slice payload dbStart dbEnd ;;
                if looksLikeDatabase databaseName then Ret databaseName
                else Ret []
              else Ret []
          else
            if looksLikeDatabase nextField then Ret nextField
            else Ret []
        else Ret [].

(** *** isUseCommand, extractDatabaseFromUseCommand *)

Definition isUseCommand (data : bytes) : outcome bool :=
  if length data <? 5 then Ret false
  else
    let commandStart := 4 in
    if commandStart + 4 <=? length data then
      command <- slice data commandStart (commandStart + 4) ;;
      Ret (eqb (ToUpper command) (str "USE "))
    else Ret false.

(** [data[end] != 0 && data[end] != ';' && data[end] != ' ']. *)
Definition notDelimiter (b : byte) : bool :=
  negb (Byte.eqb b x00) && negb (Byte.eqb b x3b) && negb (Byte.eqb b x20).

Definition extractDatabaseFromUseCommand (data : bytes) : outcome bytes :=
  if length data <? 8 then Ret []
  else
    let start := 8 in
    end_ <- scan notDelimiter (length data) data start ;;
    if start <? end_ then slice data start end_
    else Ret [].

(** *** validateDatabaseName *)

Inductive ValidationError : Type :=
| EmptyName                          (* "database name cannot be empty" *)
| NotAllowed (dbName : bytes)        (* "database name '%s' is not allowed" *)
| InvalidCharacters (dbName : bytes) (* "... contains invalid characters" *).

Definition inRange (lo hi n : N) : bool := ((lo <=? n) && (n <=? hi))%N.

(** The character class [[a-zA-Z0-9_-]]. *)
Definition validChar (b : byte) : bool :=
  let n := Byte.to_N b in
  inRange 97 122 n || inRange 65 90 n || inRange 48 57 n ||
  (n =? 95)%N || (n =? 45)%N.

(** [regexp.MustCompile(`^[a-zA-Z0-9_-]+$`).MatchString]: one or more
    characters of the class and nothing else ([$] is the end of the text
    in Go's syntax; a byte outside ASCII never decodes to a rune of the
    class). *)
Definition validPattern_MatchString (s : bytes) : bool :=
  match s with
  | [] => false
  | _ :: _ => forallb validChar s
  end.

Definition validateDatabaseName (dbName : bytes) : option ValidationError :=
  if eqb dbName [] then Some EmptyName
  else if Contains (ToLower dbName) (str "information_schema") ||
          Contains (ToLower dbName) (str "mysql") ||
          Contains (ToLower dbName) (str "performance_schema") ||
          Contains (ToLower dbName) (str "sys")
  then Some (NotAllowed dbName)
  else if negb (validPattern_MatchString dbName)
  then Some (InvalidCharacters dbName)
  else None.

(** *** Connections

    A [net.Conn] as the session sees it: the data the peer still delivers,
    cut into the pieces in which it arrives, what a [Read] reports once
    that data is used up (the peer closed, or the deadline passed first),
    and whether each successive [Write] fails.  Time itself is not part
    of the model: a deadline that has run out shows as [ErrTimeout] at the
    end of the data and as failing writes, and a session in which a wait
    outlasts the deadline of another connection has that connection's
    writes fail from then on (see [silentUpstream]). *)

Inductive NetError : Type :=
| EOF
| ErrUnexpectedEOF
| ErrTimeout
| ErrConn.

Record Conn : Type := mkConn {
  incoming : list bytes;
  incomingEnd : NetError;
  writeFails : list bool
}.

Definition setIncoming (c : Conn) (segs : list bytes) : Conn :=
  mkConn segs (incomingEnd c) (writeFails c).

(** [conn.Read(buf)] with [len(buf) = k]: up to [k] bytes of the piece at
    the head of the stream. *)
Definition conn_Read (c : Conn) (k : nat)
  : (bytes * option NetError) * Conn :=
  match incoming c with
  | [] => (([], Some (incomingEnd c)), c)
  | seg :: rest =>
      if length seg <=? k then ((seg, None), setIncoming c rest)
      else ((firstn k seg, None), setIncoming c (skipn k seg :: rest))
  end.

(** [io.ReadFull(conn, buf)] where [need] bytes of [buf] are still to be
    filled and [got] has been read so far: [Read] is called until the
    buffer is full or an error comes back; [io.EOF] after a partial read
    becomes [io.ErrUnexpectedEOF]. *)
Fixpoint readFull (segs : list bytes) (endErr : NetError) (need : nat)
         (got : bytes) {struct segs}
  : (bytes * option NetError) * list bytes :=
  match need with
  | O => ((got, None), segs)
  | S _ =>
      match segs with
      | [] =>
          let err := match got, endErr with
                     | _ :: _, EOF => ErrUnexpectedEOF
                     | _, e => e
                     end in
          ((got, Some err), [])
      | seg :: rest =>
          if length seg <=? need
          then readFull rest endErr (need - length seg) (got ++ seg)
          else ((got ++ firstn need seg, None), skipn need seg :: rest)
      end
  end.

Definition io_ReadFull (c : Conn) (n : nat)
  : (bytes * option NetError) * Conn :=
  let '(r, segs) := readFull (incoming c) (incomingEnd c) n [] in
  (r, setIncoming c segs).

Inductive PacketError : Type :=
| HeaderReadFailed (e : NetError)   (* "failed to read packet header" *)
| PayloadReadFailed (e : NetError)  (* "failed to read packet payload" *).

(** [int(header[0]) | int(header[1])<<8 | int(header[2])<<16]. *)
Definition packetLengthOf (h0 h1 h2 : byte) : Z :=
  Z.lor (Z.lor (int h0) (Z.shiftl (int h1) 8)) (Z.shiftl (int h2) 16).

(** The deadline set from [timeout] decides only when a silent peer makes
    the read fail; which reads fail is part of the connection.  A header
    read without error has exactly 4 bytes ([readFull_length]), so the last
    case of the match on it is never taken. *)
Definition readPacketWithTimeout (c : Conn) (timeout : Z)
  : (MySQLPacket + PacketError) * Conn :=
  let '((header, err), c1) := io_ReadFull c 4 in
  match err with
  | Some e => (inr (HeaderReadFailed e), c1)
  | None =>
      match header with
      | [h0; h1; h2; h3] =>
          let packetLength := packetLengthOf h0 h1 h2 in
          let sequenceID := int h3 in
          let '((payload, err), c2) := io_ReadFull c1 (Z.to_nat packetLength) in
          match err with
          | Some e => (inr (PayloadReadFailed e), c2)
          | None =>
              let fullPacket := header ++ payload in
              (inl (mkPacket packetLength sequenceID payload fullPacket), c2)
          end
      | _ => (inr (HeaderReadFailed ErrConn), c1)
      end
  end.

Definition readPacket (c : Conn) : (MySQLPacket + PacketError) * Conn :=
  readPacketWithTimeout c 0.

(** *** The session's world *)

Inductive Peer : Type := Client | Upstream.

Inductive AdminOp : Type :=
| SqlOpen
| Ping
| QueryExists (dbName : bytes)
| Exec (statement : bytes)
| Close.

Inductive Event : Type :=
| EvDial
| EvWrite (to : Peer) (data : bytes)
| EvAdmin (op : AdminOp).

(** How the upstream answers one administrative connection. *)
Record AdminReply : Type := mkAdminReply {
  openFails : bool;
  pingFails : bool;
  existsCount : option Z;   (* [None]: the existence query fails *)
  createFails : bool
}.

Record World : Type := mkWorld {
  clientConn : Conn;
  mysqlConn : Conn;
  dialFails : bool;
  adminReplies : nat -> AdminReply;
  adminCalls : nat;
  trace : list Event
}.

Definition conn (p : Peer) (w : World) : Conn :=
  match p with
  | Client => clientConn w
  | Upstream => mysqlConn w
  end.

Definition setConn (p : Peer) (c : Conn) (w : World) : World :=
  match p with
  | Client =>
      mkWorld c (mysqlConn w) (dialFails w) (adminReplies w) (adminCalls w) (trace w)
  | Upstream =>
      mkWorld (clientConn w) c (dialFails w) (adminReplies w) (adminCalls w) (trace w)
  end.

Definition emit (e : Event) (w : World) : World :=
  mkWorld (clientConn w) (mysqlConn w) (dialFails w) (adminReplies w)
          (adminCalls w) (trace w ++ [e]).

Definition nextAdminCall (w : World) : World :=
  mkWorld (clientConn w) (mysqlConn w) (dialFails w) (adminReplies w)
          (S (adminCalls w)) (trace w).

(** [conn.Write(data)]: [true] when the call fails. *)
Definition conn_Write (p : Peer) (data : bytes) (w : World) : bool * World :=
  let c := conn p w in
  let w1 := emit (EvWrite p data) w in
  match writeFails c with
  | [] => (false, w1)
  | failed :: rest =>
      (failed, setConn p (mkConn (incoming c) (incomingEnd c) rest) w1)
  end.

Definition readFrom (p : Peer) (timeout : Z) (w : World)
  : (MySQLPacket + PacketError) * World :=
  let '(r, c) := readPacketWithTimeout (conn p w) timeout in
  (r, setConn p c w).

(** [writePacket(conn, packet)]: [true] when it returns an error. *)
Definition writePacket (p : Peer) (packet : MySQLPacket) (w : World)
  : bool * World :=
  conn_Write p (FullPacket packet) w.

(** *** ensureDatabaseExists *)

Record Config : Type := mkConfig {
  ProxyPort : Z;
  MySQLHost : bytes;
  MySQLPort : Z;
  MySQLUser : bytes;
  MySQLPassword : bytes;
  LogLevel : bytes
}.

Inductive GateError : Type :=
| InvalidName (why : ValidationError) (* "invalid database name: ..." *)
| ConnectFailed                       (* "failed to connect to MySQL" *)
| PingFailed                          (* "failed to ping MySQL" *)
| CheckFailed                         (* "failed to check if database exists" *)
| CreateFailed (dbName : bytes)       (* "failed to create database ..." *).

Definition createQuery (dbName : bytes) : bytes :=
  str "CREATE DATABASE `" ++ dbName ++ str "`".

Definition ensureDatabaseExists (config : Config) (dbName : bytes) (w : World)
  : option GateError * World :=
  match validateDatabaseName dbName with
  | Some err => (Some (InvalidName err), w)
  | None =>
      let reply := adminReplies w (adminCalls w) in
      let w := emit (EvAdmin SqlOpen) (nextAdminCall w) in
      if openFails reply then (Some ConnectFailed, w)
      else
        let w := emit (EvAdmin Ping) w in
        if pingFails reply then (Some PingFailed, emit (EvAdmin Close) w)
        else
          let w := emit (EvAdmin (QueryExists dbName)) w in
          match existsCount reply with
          | None => (Some CheckFailed, emit (EvAdmin Close) w)
          | Some exists_ =>
              if (exists_ =? 0)%Z then
                let w := emit (EvAdmin (Exec (createQuery dbName))) w in
                if createFails reply
                then (Some (CreateFailed dbName), emit (EvAdmin Close) w)
                else (None, emit (EvAdmin Close) w)
              else (None, emit (EvAdmin Close) w)
          end
  end.

(** *** forwardWithUseInterception *)

(** Lines 711-723: the USE check made on a chunk before it is forwarded.
    The error of [ensureDatabaseExists] is logged and dropped. *)
Definition interceptUse (config : Config) (data : bytes) (w : World)
  : outcome World :=
  isUse <- isUseCommand data ;;
  if isUse then
    databaseName <- extractDatabaseFromUseCommand data ;;
    if negb (eqb databaseName []) then
      let '(_, w) := ensureDatabaseExists config databaseName w in
      Ret w
    else Ret w
  else Ret w.

(** Lines 708-732, the body run for a read of [n > 0] bytes; the boolean
    tells whether the write to the upstream failed. *)
Definition forwardChunk (config : Config) (data : bytes) (w : World)
  : outcome (bool * World) :=
  w <- interceptUse config data w ;;
  Ret (conn_Write Upstream data w).

Inductive LoopExit : Type :=
| ReadFailed (e : NetError)   (* the client's stream ended or failed *)
| WriteFailed                 (* "Error writing to MySQL" *)
| Crashed                     (* a panic *)
| OutOfFuel.

Definition bufferSize : nat := 4096.

Fixpoint forwardWithUseInterception (fuel : nat) (config : Config)
         (w : World) : LoopExit * World :=
  match fuel with
  | O => (OutOfFuel, w)
  | S fuel' =>
      let '((data, err), c) := conn_Read (clientConn w) bufferSize in
      let w := setConn Client c w in
      match err with
      | Some e => (ReadFailed e, w)
      | None =>
          if 0 <? length data then
            match forwardChunk config data w with
            | Ret (failed, w) =>
                if failed then (WriteFailed, w)
                else forwardWithUseInterception fuel' config w
            | Panic => (Crashed, w)
            | Diverge => (OutOfFuel, w)
            end
          else forwardWithUseInterception fuel' config w
      end
  end.

(** Every iteration takes a piece of the client's stream or what is left
    of one, so this many iterations reach the error that ends the loop. *)
Definition relayFuel (w : World) : nat :=
  S (length (incoming (clientConn w)) +
     length (concat (incoming (clientConn w)))).

(** *** handleConnection *)

Inductive SessionState : Type :=
| Failed      (* an early return of handleConnection *)
| Relaying    (* "Handshake completed successfully": both copies start *).

(** [&MySQLPacket{SequenceID: 2, Payload: []byte{0, 0, 0, 2, 0, 0, 0}}];
    [Length] and [FullPacket] keep their zero values. *)
Definition okPacket : MySQLPacket :=
  mkPacket 0 2 [x00; x00; x00; x02; x00; x00; x00] [].

Definition handshakeTimeout : Z := 30 * 1000000000.

(** Lines 853-884: dial the upstream, pass its greeting to the client and
    read the client's handshake response. *)
Definition greetingForwarded (w : World) : option MySQLPacket * World :=
  let w := emit EvDial w in
  if dialFails w then (None, w)
  else
    let '(r, w) := readFrom Upstream 0 w in
    match r with
    | inr _ => (None, w)
    | inl serverGreeting =>
        let '(failed, w) := writePacket Client serverGreeting w in
        if failed then (None, w)
        else
          let '(r, w) := readFrom Client 0 w in
          match r with
          | inr _ => (None, w)
          | inl clientHandshake => (Some clientHandshake, w)
          end
    end.

(** Lines 886-934: the gate on the handshake response, its forwarding and
    the upstream's reply. *)
Definition handshakeGated (config : Config) (clientHandshake : MySQLPacket)
           (w : World) : outcome (SessionState * World) :=
  databaseName <- parseDatabaseName clientHandshake ;;
  let '(gateErr, w) :=
    if negb (eqb databaseName [])
    then ensureDatabaseExists config databaseName w
    else (None, w) in
  match gateErr with
  | Some _ => Ret (Failed, w)
  | None =>
      let '(failed, w) := writePacket Upstream clientHandshake w in
      if failed then Ret (Failed, w)
      else
        let '(r, w) := readFrom Upstream handshakeTimeout w in
        match r with
        | inr _ =>
            let '(failed, w) := writePacket Client okPacket w in
            if failed then Ret (Failed, w) else Ret (Relaying, w)
        | inl serverResponse =>
            let '(failed, w) := writePacket Client serverResponse w in
            if failed then Ret (Failed, w)
            else
              _ <- slice (Payload serverResponse) 0
                     (Nat.min (length (Payload serverResponse)) 20) ;;
              Ret (Relaying, w)
        end
  end.

Definition handleConnection (config : Config) (w : World)
  : outcome (SessionState * World) :=
  match greetingForwarded w with
  | (None, w) => Ret (Failed, w)
  | (Some clientHandshake, w) => handshakeGated config clientHandshake w
  end.

Definition writesTo (p : Peer) (t : list Event) : list bytes :=
  flat_map (fun e => match e, p with
                     | EvWrite Client d, Client => [d]
                     | EvWrite Upstream d, Upstream => [d]
                     | _, _ => []
                     end) t.

Definition adminOps (t : list Event) : list AdminOp :=
  flat_map (fun e => match e with EvAdmin op => [op] | _ => [] end) t.

(** ** Specification-side vocabulary *)

(** The longest prefix of [l] whose bytes all satisfy [keep], and what
    follows it. *)
Fixpoint takeWhile (keep : byte -> bool) (l : bytes) : bytes :=
  match l with
  | [] => []
  | b :: l' => if keep b then b :: takeWhile keep l' else []
  end.

Fixpoint dropWhile (keep : byte -> bool) (l : bytes) : bytes :=
  match l with
  | [] => []
  | b :: l' => if keep b then dropWhile keep l' else l
  end.

(** The handshake walk as the specification words it (section 4.2, steps
    1 to 8), on the payload as a list: the schema name, empty for none. *)
Definition acceptCandidate (candidate : bytes) : bytes :=
  if looksLikeDatabase candidate then candidate else [].

Definition handshakeSchema (payload : bytes) : bytes :=
  if length payload <? 32 then []
  else
    match dropWhile notNul (skipn 32 payload) with
    | [] => []
    | _ :: afterUser =>
        match afterUser with
        | [] => []
        | n :: credentials =>
            if length credentials <=? Byte.to_nat n then []
            else
              let trailing := skipn (Byte.to_nat n) credentials in
              let field := takeWhile notNul trailing in
              if isAuthMethod field then
                match dropWhile notNul trailing with
                | [] => []
                | _ :: following =>
                    acceptCandidate (takeWhile notNul following)
                end
              else acceptCandidate field
        end
    end.

(** "The 4 bytes at offsets 4..7 case-insensitively equal [USE ]". *)
Definition usePrefixAt4 (data : bytes) : Prop :=
  exists h0 h1 h2 h3 c0 c1 c2 rest,
    data = h0 :: h1 :: h2 :: h3 :: c0 :: c1 :: c2 :: " "%byte :: rest /\
    (c0 = "U"%byte \/ c0 = "u"%byte) /\
    (c1 = "S"%byte \/ c1 = "s"%byte) /\
    (c2 = "E"%byte \/ c2 = "e"%byte).

Definition isDelimiter (b : byte) : Prop :=
  b = x00 \/ b = ";"%byte \/ b = " "%byte.

(** The schema-name invariant of the specification (section 3): the name
    matches [^[A-Za-z0-9_-]+$] and its lower-case form contains none of the
    reserved substrings. *)
Definition between (lo hi b : byte) : Prop :=
  (Byte.to_N lo <= Byte.to_N b)%N /\ (Byte.to_N b <= Byte.to_N hi)%N.

Definition patternChar (b : byte) : Prop :=
  between "a" "z" b \/ between "A" "Z" b \/ between "0" "9" b \/
  b = "_"%byte \/ b = "-"%byte.

Definition matchesPattern (name : bytes) : Prop :=
  name <> [] /\ Forall patternChar name.

Definition substring (sub s : bytes) : Prop :=
  exists pre post, s = pre ++ sub ++ post.

Definition reserved : list bytes :=
  [str "information_schema"; str "mysql"; str "performance_schema";
   str "sys"].

Definition validSchemaName (name : bytes) : Prop :=
  matchesPattern name /\
  forall r, In r reserved -> ~ substring r (map lowerByte name).

(** The frame of the specification (section 3) on the wire: a 4-byte
    header, the length in 24 bits little-endian and the sequence number,
    followed by the payload. *)
Definition byteOf (z : Z) : byte :=
  match Byte.of_N (Z.to_N z) with
  | Some b => b
  | None => x00
  end.

Definition encode (length sequence : Z) (payload : bytes) : bytes :=
  [byteOf (length mod 256); byteOf (length / 256 mod 256);
   byteOf (length / 65536); byteOf sequence] ++ payload.

(** A packet value that stands for a frame ([payload.size == length]) and
    carries the frame's bytes in [FullPacket], as [readPacket] builds it. *)
Definition wellFormed (p : MySQLPacket) : Prop :=
  (0 <= Length p < 2 ^ 24)%Z /\ (0 <= SequenceID p < 256)%Z /\
  Z.of_nat (length (Payload p)) = Length p /\
  FullPacket p = encode (Length p) (SequenceID p) (Payload p).

(** A connection on which the given writes arrive, piece by piece, and
    which is then closed. *)
Definition delivering (writes : list bytes) : Conn :=
  mkConn writes EOF [].

Definition quietWorld : World :=
  mkWorld (delivering []) (delivering []) false
          (fun _ => mkAdminReply false false (Some 1%Z) false) 0 [].

(** Write a packet with [writePacket], read what arrives with
    [readPacket]. *)
Definition roundTrip (p : MySQLPacket) : MySQLPacket + PacketError :=
  let w := snd (writePacket Upstream p quietWorld) in
  fst (readPacket (delivering (writesTo Upstream (trace w)))).

(** The bytes are exactly one whole frame, in the layout of section 3 of
    the specification: a header that gives a length below 2^24 and a
    sequence number, followed by exactly that many payload bytes. *)
Definition wholeFrame (data : bytes) : Prop :=
  exists len sequence payload,
    (0 <= len < 2 ^ 24)%Z /\ (0 <= sequence < 256)%Z /\
    Z.of_nat (length payload) = len /\
    data = encode len sequence payload.

(** The same, as a test: the bytes after the first four are as many as the
    first three say, read as a little-endian number. *)
Definition wholeFrameb (data : bytes) : bool :=
  match data with
  | h0 :: h1 :: h2 :: _ :: body =>
      (Z.of_nat (length body) =? int h0 + 256 * int h1 + 65536 * int h2)%Z
  | _ => false
  end.

(** What the successive calls of [Read] with the relay's buffer return on a
    connection, up to the first error, for at most [count] calls. *)
Fixpoint successiveReads (count : nat) (c : Conn) : list bytes :=
  match count with
  | O => []
  | S count' =>
      match conn_Read c bufferSize with
      | ((data, None), c') => data :: successiveReads count' c'
      | ((_, Some _), _) => []
      end
  end.

Definition nonEmpty (data : bytes) : bool := 0 <? length data.

(** *** Sample sessions *)

Definition frameOf (sequence : Z) (payload : bytes) : bytes :=
  encode (Z.of_nat (length payload)) sequence payload.

Definition greeting : bytes := frameOf 0 (x0a :: str "8.3.0" ++ [x00]).

(** A handshake response of user [root] with an empty credential block,
    followed by the given trailing bytes. *)
Definition handshakeOf (trailing : bytes) : bytes :=
  frameOf 1 (repeat x00 32 ++ str "root" ++ [x00; x00] ++ trailing).

Definition sampleConfig : Config :=
  mkConfig 3308 (str "localhost") 3306 (str "root") (str "test") (str "info").

(** A session whose peers deliver the given pieces; the upstream's stream
    ends with [upstreamEnd]. *)
Definition session (fromUpstream : list bytes) (upstreamEnd : NetError)
           (fromClient : list bytes) : World :=
  mkWorld (mkConn fromClient EOF []) (mkConn fromUpstream upstreamEnd [])
          false (fun _ => mkAdminReply false false (Some 1%Z) false) 0 [].

(** The client names no schema; the upstream sends its greeting and then
    stays silent until the 30-second wait of line 909 times out.  The
    deadline that line 864 put on the client's connection, 30 seconds
    after the dial, is never moved and has passed by then: the client's
    first write, of the greeting, succeeds and its second one fails. *)
Definition silentUpstream : World :=
  mkWorld (mkConn [handshakeOf []] EOF [false; true])
          (mkConn [greeting] ErrTimeout [])
          false (fun _ => mkAdminReply false false (Some 1%Z) false) 0 [].

(** The client asks for the reserved schema [information_schema]. *)
Definition reservedSchema : World :=
  session [greeting] EOF [handshakeOf (str "information_schema" ++ [x00])].

Definition ping : bytes := frameOf 0 [x0e].

(** Two frames of the client arrive together. *)
Definition pipelined : World := session [] EOF [ping ++ ping].

(** One frame of the client is longer than the relay's buffer. *)
Definition longQuery : World :=
  session [] EOF [frameOf 0 (x03 :: repeat "a"%byte 5000)].

(** A chunk whose command region is [USE sys;], a name the gate
    refuses. *)
Definition useSys : bytes := frameOf 0 (str "USE sys;").

Definition usingSys : World := session [] EOF [useSys].

(** In the sample sessions text outside ASCII keeps its bytes under
    [ToLower] and [ToUpper]. *)
Definition keepBytes (s : bytes) : bytes := s.

(** The packet value the claim of the round trip is refuted on: a frame
    of 7 payload bytes whose [FullPacket] was never filled in. *)
Definition bareOkPacket : MySQLPacket :=
  mkPacket 7 2 [x00; x00; x00; x02; x00; x00; x00] [].

(** The error [io.ReadFull] reports when the stream ends after [got]. *)
Definition shortReadError (got : bytes) (endErr : NetError) : NetError :=
  match got, endErr with
  | _ :: _, EOF => ErrUnexpectedEOF
  | _, e => e
  end.

(** The schema is absent and the upstream answers every administrative
    call. *)
Definition absentSchema : World :=
  mkWorld (delivering []) (delivering []) false
          (fun _ => mkAdminReply false false (Some 0%Z) false) 0 [].

(** The client asks for [svc_a], which the upstream does not have yet; the
    upstream answers the handshake with an OK frame. *)
Definition okReply : bytes :=
  frameOf 2 [x00; x00; x00; x02; x00; x00; x00].

Definition freshSchema : World :=
  mkWorld (mkConn [handshakeOf (str "svc_a" ++ [x00])] EOF [])
          (mkConn [greeting; okReply] EOF []) false
          (fun _ => mkAdminReply false false (Some 0%Z) false) 0 [].

(** The client sends a ping, then [USE svc_b;], then closes. *)
Definition pingThenUse : World :=
  mkWorld (mkConn [ping; frameOf 0 (str "USE svc_b;")] EOF [])
          (delivering []) false
          (fun _ => mkAdminReply false false (Some 0%Z) false) 0 [].

(** *** setupLogging, loadConfig *)

Inductive Level : Type :=
| PanicLevel | FatalLevel | ErrorLevel | WarnLevel | InfoLevel | DebugLevel.

(** The level that [setupLogging] hands to [logrus.SetLevel]. *)
Definition setupLogging (level : bytes) : Level :=
  let l := ToLower level in
  if eqb l (str "debug") then DebugLevel
  else if eqb l (str "info") then InfoLevel
  else if eqb l (str "warn") || eqb l (str "warning") then WarnLevel
  else if eqb l (str "error") then ErrorLevel
  else if eqb l (str "fatal") then FatalLevel
  else if eqb l (str "panic") then PanicLevel
  else InfoLevel.

Definition defaultConfig : Config :=
  mkConfig 3308 (str "localhost") 3306 (str "root") (str "test") (str "info").

(** The assignments [config.ProxyPort = n] and so on. *)
Definition withProxyPort (n : Z) (c : Config) : Config :=
  mkConfig n (MySQLHost c) (MySQLPort c) (MySQLUser c) (MySQLPassword c)
           (LogLevel c).

Definition withMySQLHost (host : bytes) (c : Config) : Config :=
  mkConfig (ProxyPort c) host (MySQLPort c) (MySQLUser c) (MySQLPassword c)
           (LogLevel c).

Definition withMySQLPort (n : Z) (c : Config) : Config :=
  mkConfig (ProxyPort c) (MySQLHost c) n (MySQLUser c) (MySQLPassword c)
           (LogLevel c).

Definition withMySQLUser (user : bytes) (c : Config) : Config :=
  mkConfig (ProxyPort c) (MySQLHost c) (MySQLPort c) user (MySQLPassword c)
           (LogLevel c).

Definition withMySQLPassword (password : bytes) (c : Config) : Config :=
  mkConfig (ProxyPort c) (MySQLHost c) (MySQLPort c) (MySQLUser c) password
           (LogLevel c).

Definition withLogLevel (level : bytes) (c : Config) : Config :=
  mkConfig (ProxyPort c) (MySQLHost c) (MySQLPort c) (MySQLUser c)
           (MySQLPassword c) level.

(** [loadConfig] on an environment given by [os.Getenv], which is empty for
    a variable that is not set.  [Sscanf_d s] stands for
    [fmt.Sscanf(s, "%d", &n)] of the Go library: [Some v] when it stores [v]
    and reports one item scanned without error, [None] when it reports an
    error and stores nothing. *)
Definition loadConfig (Sscanf_d : bytes -> option Z)
           (Getenv : bytes -> bytes) : Config :=
  let config := defaultConfig in
  let config :=
    let port := Getenv (str "PROXY_PORT") in
    if negb (eqb port []) then
      match Sscanf_d port with
      | Some n => withProxyPort n config
      | None => config
      end
    else config in
  let config :=
    let host := Getenv (str "MYSQL_HOST") in
    if negb (eqb host []) then withMySQLHost host config else config in
  let config :=
    let port := Getenv (str "MYSQL_PORT") in
    if negb (eqb port []) then
      match Sscanf_d port with
      | Some n => withMySQLPort n config
      | None => config
      end
    else config in
  let config :=
    let user := Getenv (str "MYSQL_USER") in
    if negb (eqb user []) then withMySQLUser user config else config in
  let config :=
    let password := Getenv (str "MYSQL_PASSWORD") in
    if negb (eqb password []) then withMySQLPassword password config
    else config in
  let config :=
    let level := Getenv (str "LOG_LEVEL") in
    if negb (eqb level []) then withLogLevel (ToLower level) config
    else config in
  config.

(** *** parseDatabaseName of the earlier revision (main.go 152-201) *)

Definition parseDatabaseName_v1 (packet : MySQLPacket) : outcome bytes :=
  let payload := Payload packet in
  let fuel := length payload in
  if length payload <? 32 then Ret []
  else
    let pos := 32 in
    pos <- scan notNul fuel payload pos ;;
    let pos := pos + 1 in
    if length payload <=? pos then Ret []
    else
      pos <- (if pos <? length payload then
                passwordLen <- index payload pos ;;
                Ret (pos + 1 + Byte.to_nat passwordLen)
              else Ret pos) ;;
      if length payload <=? pos then Ret []
      else
        let dbStart := pos in
        dbEnd <- scan notNul fuel payload dbStart ;;
        if dbStart <? dbEnd then slice payload dbStart dbEnd
        else Ret [].

(** The first trailing field of a handshake payload, empty when the payload
    ends before it. *)
Definition firstTrailingField (payload : bytes) : bytes :=
  if length payload <? 32 then []
  else
    match dropWhile notNul (skipn 32 payload) with
    | _ :: n :: credentials =>
        takeWhile notNul (skipn (Byte.to_nat n) credentials)
    | _ => []
    end.

(** ** Proofs *)

(** Most facts do not depend on the case tables. *)
Ltac forget_tables :=
  try clear unicodeToUpper_not_USE; try clear unicodeToUpper;
  try clear unicodeToLower.

(** *** Loops, indexing and slicing *)

Lemma takeWhile_dropWhile (keep : byte -> bool) (l : bytes) :
  takeWhile keep l ++ dropWhile keep l = l.
Proof.
  induction l as [|b l IH]; simpl; [reflexivity|].
  destruct (keep b); simpl; [now rewrite IH | reflexivity].
Qed.

Lemma takeWhile_length (keep : byte -> bool) (l : bytes) :
  length (takeWhile keep l) <= length l.
Proof.
  induction l as [|b l IH]; simpl; [lia|].
  destruct (keep b); simpl; lia.
Qed.

Lemma takeWhile_all (keep : byte -> bool) (l : bytes) :
  forallb keep (takeWhile keep l) = true.
Proof.
  induction l as [|b l IH]; simpl; [reflexivity|].
  destruct (keep b) eqn:E; simpl; [now rewrite E | reflexivity].
Qed.

Lemma skipn_takeWhile (keep : byte -> bool) (l : bytes) :
  skipn (length (takeWhile keep l)) l = dropWhile keep l.
Proof.
  induction l as [|b l IH]; simpl; [reflexivity|].
  destruct (keep b); simpl; [exact IH | reflexivity].
Qed.

Lemma firstn_takeWhile (keep : byte -> bool) (l : bytes) :
  firstn (length (takeWhile keep l)) l = takeWhile keep l.
Proof.
  induction l as [|b l IH]; simpl; [reflexivity|].
  destruct (keep b); simpl; [now rewrite IH | reflexivity].
Qed.

Lemma takeWhile_app_stop (keep : byte -> bool) (field rest : bytes) :
  forallb keep field = true ->
  match rest with [] => True | b :: _ => keep b = false end ->
  takeWhile keep (field ++ rest) = field.
Proof.
  intros Hf Hr. induction field as [|b f IH]; simpl in *.
  - destruct rest as [|b r]; simpl; [reflexivity | now rewrite Hr].
  - apply andb_true_iff in Hf as [Hb Hf]. rewrite Hb. now rewrite IH.
Qed.

Lemma skipn_cons_nth (l : bytes) (n : nat) (b : byte) :
  nth_error l n = Some b -> skipn n l = b :: skipn (S n) l.
Proof.
  revert n. induction l as [|a l IH]; intros [|n] H; simpl in *;
    try discriminate.
  - now inversion H.
  - now apply IH.
Qed.

Lemma index_skipn (l : bytes) (n : nat) :
  n < length l ->
  exists b, index l n = Ret b /\ skipn n l = b :: skipn (S n) l.
Proof.
  intros H. unfold index.
  destruct (nth_error l n) as [b|] eqn:E.
  - exists b. split; [reflexivity | now apply skipn_cons_nth].
  - apply nth_error_None in E. lia.
Qed.

Lemma slice_ok (l : bytes) (lo hi : nat) :
  lo <= hi -> hi <= length l ->
  slice l lo hi = Ret (firstn (hi - lo) (skipn lo l)).
Proof.
  intros H1 H2. unfold slice.
  apply Nat.leb_le in H1, H2. now rewrite H1, H2.
Qed.

(** The loop stops at the first byte that fails [keepGoing], or at the
    end of the data, once it may run for as many steps as bytes remain. *)
Lemma scan_spec (keepGoing : byte -> bool) (fuel : nat) (data : bytes) :
  forall pos,
    pos <= length data -> length data - pos <= fuel ->
    scan keepGoing fuel data pos =
    Ret (pos + length (takeWhile keepGoing (skipn pos data))).
Proof.
  induction fuel as [|fuel IH]; intros pos Hle Hfuel.
  - assert (pos = length data) by lia. subst pos.
    simpl. rewrite Nat.ltb_irrefl, skipn_all. simpl. f_equal. lia.
  - cbn [scan]. destruct (pos <? length data) eqn:Hlt.
    + apply Nat.ltb_lt in Hlt.
      destruct (index_skipn data pos Hlt) as (b & Hb & Hs).
      rewrite Hb, Hs. cbn [bind takeWhile].
      destruct (keepGoing b); cbn [length].
      * rewrite IH by lia. f_equal. lia.
      * f_equal. lia.
    + apply Nat.ltb_ge in Hlt. assert (pos = length data) by lia. subst pos.
      rewrite skipn_all. simpl. f_equal. lia.
Qed.

Lemma scan_bounds (keepGoing : byte -> bool) (data : bytes) (pos : nat) :
  pos <= length data ->
  pos + length (takeWhile keepGoing (skipn pos data)) <= length data.
Proof.
  intros H. pose proof (takeWhile_length keepGoing (skipn pos data)) as L.
  rewrite length_skipn in L. lia.
Qed.

Lemma slice_scanned (keepGoing : byte -> bool) (data : bytes) (pos : nat) :
  pos <= length data ->
  slice data pos (pos + length (takeWhile keepGoing (skipn pos data))) =
  Ret (takeWhile keepGoing (skipn pos data)).
Proof.
  intros H. rewrite slice_ok; [| lia | now apply scan_bounds].
  replace (pos + length (takeWhile keepGoing (skipn pos data)) - pos)
    with (length (takeWhile keepGoing (skipn pos data))) by lia.
  now rewrite firstn_takeWhile.
Qed.

(** *** extractDatabaseFromUseCommand *)

(** What the function computes: the bytes from offset 8 up to the first
    NUL, [;] or space, or up to the end of the data. *)
Lemma extractDatabaseFromUseCommand_run (data : bytes) :
  extractDatabaseFromUseCommand data =
  Ret (takeWhile notDelimiter (skipn 8 data)).
Proof.
  unfold extractDatabaseFromUseCommand.
  destruct (length data <? 8) eqn:Hlen.
  - apply Nat.ltb_lt in Hlen. rewrite skipn_all2 by lia. reflexivity.
  - apply Nat.ltb_ge in Hlen.
    rewrite scan_spec by lia. cbn [bind].
    destruct (8 <? 8 + length (takeWhile notDelimiter (skipn 8 data))) eqn:E.
    + now apply slice_scanned.
    + apply Nat.ltb_ge in E.
      destruct (takeWhile notDelimiter (skipn 8 data)); simpl in *;
        [reflexivity | lia].
Qed.

(** *** parseDatabaseName *)

Lemma skipn_cons_inv (l : bytes) (n : nat) (x : byte) (rest : bytes) :
  skipn n l = x :: rest ->
  index l n = Ret x /\ skipn (S n) l = rest /\
  length l = n + S (length rest).
Proof.
  revert n. induction l as [|a l IH]; intros [|n] H; simpl in H;
    try discriminate.
  - inversion H; subst. repeat split.
  - destruct (IH n H) as (H1 & H2 & H3). repeat split; try assumption.
    simpl. lia.
Qed.

Lemma skipn_nil_inv (l : bytes) (n : nat) :
  skipn n l = [] -> length l <= n.
Proof.
  intros H. pose proof (length_skipn n l) as L. rewrite H in L.
  simpl in L. lia.
Qed.

Lemma skipn_scanned (data : bytes) (pos : nat) :
  skipn (pos + length (takeWhile notNul (skipn pos data))) data =
  dropWhile notNul (skipn pos data).
Proof.
  rewrite Nat.add_comm, <- skipn_skipn. apply skipn_takeWhile.
Qed.

(** The scan of one trailing field starting at [pos], as the code does it
    three times: the loop, the emptiness test and the slice. *)
Lemma field_at (A : Type) (payload : bytes) (pos : nat)
      (k : nat -> bytes -> outcome A) (d : outcome A) :
  pos <= length payload ->
  (fieldEnd <- scan notNul (length payload) payload pos ;;
   if pos <? fieldEnd
   then (field <- slice payload pos fieldEnd ;; k fieldEnd field)
   else d) =
  match takeWhile notNul (skipn pos payload) with
  | [] => d
  | field => k (pos + length field) field
  end.
Proof.
  intros Hpos. rewrite scan_spec by lia. cbn [bind].
  rewrite slice_scanned by assumption. cbn [bind].
  destruct (takeWhile notNul (skipn pos payload)) as [|b f] eqn:E;
    cbn [length].
  - rewrite Nat.add_0_r, Nat.ltb_irrefl. reflexivity.
  - assert ((pos <? pos + S (length f)) = true) as ->
        by (apply Nat.ltb_lt; lia).
    reflexivity.
Qed.

(** The code computes the walk of the specification, and neither panics
    nor runs out of steps. *)
Lemma parseDatabaseName_walk (packet : MySQLPacket) :
  parseDatabaseName packet = Ret (handshakeSchema (Payload packet)).
Proof.
  unfold parseDatabaseName, handshakeSchema.
  set (P := Payload packet).
  destruct (length P <? 32) eqn:Hshort; [reflexivity|].
  apply Nat.ltb_ge in Hshort.
  rewrite slice_ok by lia. cbn [bind].
  rewrite scan_spec by lia. cbn [bind].
  rewrite slice_scanned by lia. cbn [bind].
  set (u := takeWhile notNul (skipn 32 P)).
  pose proof (skipn_scanned P 32) as HD. fold u in HD.
  destruct (dropWhile notNul (skipn 32 P)) as [|nul afterUser] eqn:ED.
  { apply skipn_nil_inv in HD.
    assert ((length P <=? 32 + length u + 1) = true) as ->
        by (apply Nat.leb_le; lia).
    reflexivity. }
  apply skipn_cons_inv in HD as (_ & HA & HL).
  replace (S (32 + length u)) with (32 + length u + 1) in HA by lia.
  destruct afterUser as [|n credentials].
  { assert ((length P <=? 32 + length u + 1) = true) as ->
        by (apply Nat.leb_le; simpl in HL; lia).
    reflexivity. }
  apply skipn_cons_inv in HA as (Hn & HC & HL2).
  assert ((length P <=? 32 + length u + 1) = false) as ->
      by (apply Nat.leb_gt; lia).
  assert ((32 + length u + 1 <? length P) = true) as ->
      by (apply Nat.ltb_lt; lia).
  rewrite Hn. cbn [bind].
  set (pos := 32 + length u + 1 + 1 + Byte.to_nat n).
  destruct (length credentials <=? Byte.to_nat n) eqn:Hcred.
  { apply Nat.leb_le in Hcred.
    assert ((length P <=? pos) = true) as ->
        by (apply Nat.leb_le; unfold pos; lia).
    reflexivity. }
  apply Nat.leb_gt in Hcred.
  assert ((length P <=? pos) = false) as Hpos
      by (apply Nat.leb_gt; unfold pos; lia).
  rewrite Hpos. apply Nat.leb_gt in Hpos.
  assert (skipn pos P = skipn (Byte.to_nat n) credentials) as HT.
  { rewrite <- HC, skipn_skipn. f_equal. unfold pos. lia. }
  set (T := skipn (Byte.to_nat n) credentials) in *.
  rewrite (field_at _ P pos) by lia.
  rewrite HT.
  pose proof (skipn_scanned P pos) as HD2. rewrite HT in HD2.
  destruct (takeWhile notNul T) as [|f0 f] eqn:EF; [reflexivity|].
  cbv zeta. set (field := f0 :: f) in *. clearbody field.
  destruct (isAuthMethod field) eqn:Hauth;
    [|unfold acceptCandidate; now destruct (looksLikeDatabase field)].
  destruct (dropWhile notNul T) as [|nul2 following] eqn:ED2.
  { apply skipn_nil_inv in HD2.
    assert ((length P <=? pos + length field + 1) = true) as ->
        by (apply Nat.leb_le; lia).
    reflexivity. }
  apply skipn_cons_inv in HD2 as (_ & HF & HL3).
  replace (S (pos + length field)) with (pos + length field + 1) in HF by lia.
  destruct (length P <=? pos + length field + 1) eqn:Hend.
  { apply Nat.leb_le in Hend.
    destruct following; [reflexivity | cbn [length] in HL3; lia]. }
  apply Nat.leb_gt in Hend.
  rewrite (field_at _ P (pos + length field + 1)) by lia.
  rewrite HF. unfold acceptCandidate.
  destruct (takeWhile notNul following) as [|g0 g]; cbv zeta;
    [reflexivity | now destruct (looksLikeDatabase (g0 :: g))].
Qed.

(** C4: on every payload, truncated, empty or hostile, the handshake
    field extractor returns a name, without a panic from an index or a
    slice out of range and without looping; the name is empty for a payload
    shorter than the 32 fixed bytes, and a name that is not empty has
    passed the client-attribute filter. *)
Theorem parseDatabaseName_total (packet : MySQLPacket) :
  exists name,
    parseDatabaseName packet = Ret name /\
    (length (Payload packet) < 32 -> name = []) /\
    (name <> [] -> looksLikeDatabase name = true).
Proof.
  exists (handshakeSchema (Payload packet)).
  split; [apply parseDatabaseName_walk|]. split.
  - intros H. unfold handshakeSchema.
    apply Nat.ltb_lt in H. now rewrite H.
  - unfold handshakeSchema, acceptCandidate.
    repeat match goal with
           | |- context [if ?c then _ else _] => destruct c eqn:?
           | |- context [match ?l with [] => _ | _ :: _ => _ end] =>
               destruct l eqn:?
           end; intros H; try congruence.
Qed.

Lemma dropWhile_app_stop (keep : byte -> bool) (field rest : bytes) :
  forallb keep field = true ->
  match rest with [] => True | b :: _ => keep b = false end ->
  dropWhile keep (field ++ rest) = rest.
Proof.
  intros Hf Hr. induction field as [|b f IH]; simpl in *.
  - destruct rest as [|b r]; simpl; [reflexivity | now rewrite Hr].
  - apply andb_true_iff in Hf as [Hb Hf]. rewrite Hb. now apply IH.
Qed.

Lemma eqb_eq (a b : bytes) : eqb a b = true <-> a = b.
Proof.
  revert b. induction a as [|x a IH]; intros [|y b]; simpl;
    try (split; [discriminate | congruence]); [tauto|].
  rewrite andb_true_iff, IH. split.
  - intros [H1 H2]. apply byte_dec_bl in H1. congruence.
  - intros H. inversion H; subst. split; [now apply byte_dec_lb | reflexivity].
Qed.

Lemma isAuthMethod_iff (field : bytes) :
  isAuthMethod field = true <->
  In field [str "mysql_native_password"; str "caching_sha2_password";
            str "sha256_password"].
Proof.
  forget_tables.
  unfold isAuthMethod. rewrite !orb_true_iff, !eqb_eq. simpl.
  intuition congruence.
Qed.

(** C5: in a handshake payload made of the 32 fixed bytes, a
    NUL-terminated user name, a length-prefixed credential block and
    trailing NUL-terminated fields, a first trailing field that is exactly
    one of the three authentication-method names is skipped, and the field
    after it is the schema-name candidate: it is returned when it passes
    the filter of step 8, as [myapp_db] does. *)
Theorem auth_method_tag_skipped
        (packet : MySQLPacket) (fixed user credentials auth db tail : bytes)
        (n : byte) :
  length fixed = 32 ->
  forallb notNul user = true ->
  length credentials = Byte.to_nat n ->
  In auth [str "mysql_native_password"; str "caching_sha2_password";
           str "sha256_password"] ->
  forallb notNul db = true ->
  (tail = [] \/ exists t, tail = x00 :: t) ->
  Payload packet =
    fixed ++ user ++ x00 :: n :: credentials ++ auth ++ x00 :: db ++ tail ->
  parseDatabaseName packet = Ret (acceptCandidate db).
Proof.
  intros Hfixed Huser Hcred Hauth Hdb Htail HP.
  rewrite parseDatabaseName_walk, HP. f_equal.
  assert (forallb notNul auth = true /\ auth <> []) as [Hnn Hne].
  { simpl in Hauth.
    destruct Hauth as [<- | [<- | [<- | []]]]; split;
      solve [reflexivity | discriminate]. }
  unfold handshakeSchema.
  assert ((length (fixed ++ user ++ x00 :: n :: credentials ++ auth ++
                   x00 :: db ++ tail) <? 32) = false) as ->.
  { apply Nat.ltb_ge. rewrite length_app. lia. }
  rewrite skipn_app, <- Hfixed, skipn_all, Nat.sub_diag. cbn [skipn app].
  rewrite dropWhile_app_stop by (assumption || reflexivity).
  assert ((length (credentials ++ auth ++ x00 :: db ++ tail)
           <=? Byte.to_nat n) = false) as ->.
  { apply Nat.leb_gt. rewrite !length_app.
    destruct auth; [congruence | simpl; lia]. }
  rewrite skipn_app, <- Hcred, skipn_all, Nat.sub_diag. cbn [skipn app].
  rewrite takeWhile_app_stop by (assumption || reflexivity).
  apply isAuthMethod_iff in Hauth. rewrite Hauth.
  rewrite dropWhile_app_stop by (assumption || reflexivity).
  rewrite takeWhile_app_stop; [reflexivity | assumption |].
  destruct Htail as [-> | [t ->]]; [exact I | reflexivity].
Qed.

(** *** The USE classifier *)

Lemma notDelimiter_iff (b : byte) :
  notDelimiter b = true <-> ~ isDelimiter b.
Proof.
  unfold notDelimiter, isDelimiter. split.
  - intros H [-> | [-> | ->]]; discriminate.
  - intros H. destruct b; try reflexivity; exfalso; apply H; auto.
Qed.

(** C10: whatever the bytes, the name taken out of a USE command is either
    empty or a run of bytes that starts at offset 8 of the input and holds
    no NUL, no [;] and no space, so no delimiter reaches the validation of
    the name. *)
Theorem use_name_has_no_delimiter (data : bytes) :
  exists name,
    extractDatabaseFromUseCommand data = Ret name /\
    (name = [] \/
     (name <> [] /\
      (exists rest, skipn 8 data = name ++ rest) /\
      Forall (fun b => ~ isDelimiter b) name)).
Proof.
  exists (takeWhile notDelimiter (skipn 8 data)).
  split; [apply extractDatabaseFromUseCommand_run|].
  destruct (takeWhile notDelimiter (skipn 8 data)) as [|b name] eqn:E;
    [now left | right].
  split; [discriminate|]. split.
  - exists (dropWhile notDelimiter (skipn 8 data)).
    rewrite <- E. symmetry. apply takeWhile_dropWhile.
  - rewrite <- E. apply Forall_forall. intros x Hx.
    apply notDelimiter_iff.
    pose proof (takeWhile_all notDelimiter (skipn 8 data)) as A.
    rewrite forallb_forall in A. now apply A.
Qed.

Lemma upperByte_is (c t : byte) :
  upperByte c = t ->
  In t ["U"%byte; "S"%byte; "E"%byte] ->
  c = t \/ c = lowerByte t.
Proof.
  intros H Ht. subst t.
  destruct c; simpl in Ht;
    solve [ left; reflexivity
          | right; reflexivity
          | exfalso; intuition discriminate ].
Qed.

Lemma upperByte_space (c : byte) : upperByte c = " "%byte -> c = " "%byte.
Proof. destruct c; intros H; solve [reflexivity | discriminate H]. Qed.

Lemma isUseCommand_short (data : bytes) :
  length data < 8 -> isUseCommand data = Ret false.
Proof.
  intros H. unfold isUseCommand.
  destruct (length data <? 5); [reflexivity|].
  assert ((4 + 4 <=? length data) = false) as -> by (apply Nat.leb_gt; lia).
  reflexivity.
Qed.

Lemma isUseCommand_long (h0 h1 h2 h3 c0 c1 c2 c3 : byte) (rest : bytes) :
  isUseCommand (h0 :: h1 :: h2 :: h3 :: c0 :: c1 :: c2 :: c3 :: rest) =
  Ret (eqb (ToUpper [c0; c1; c2; c3]) (str "USE ")).
Proof. reflexivity. Qed.

Lemma long_data (data : bytes) :
  8 <= length data ->
  exists h0 h1 h2 h3 c0 c1 c2 c3 rest,
    data = h0 :: h1 :: h2 :: h3 :: c0 :: c1 :: c2 :: c3 :: rest.
Proof.
  intros H.
  do 8 (destruct data as [|? data]; [simpl in H; lia|]).
  repeat eexists.
Qed.

Lemma isUseCommand_total (data : bytes) :
  exists matched, isUseCommand data = Ret matched.
Proof.
  unfold isUseCommand.
  destruct (length data <? 5); [eauto|].
  destruct (4 + 4 <=? length data) eqn:E; [|eauto].
  apply Nat.leb_le in E. rewrite slice_ok by lia. cbn [bind]. eauto.
Qed.

(** C6: the classifier matches a chunk exactly when its bytes 4 to 7 are
    [USE ] in either case of each letter, and the name it takes out is the
    run from offset 8 up to the first NUL, [;] or space, or up to the end;
    after any 4 header bytes, [USE orders;] and [use orders ] match and
    give [orders], and [SELECT 1] does not match. *)
Theorem use_command_classifier (data : bytes) :
  (exists matched, isUseCommand data = Ret matched) /\
  (isUseCommand data = Ret true <-> usePrefixAt4 data) /\
  extractDatabaseFromUseCommand data =
    Ret (takeWhile notDelimiter (skipn 8 data)) /\
  (forall h0 h1 h2 h3 : byte,
      let frame command := [h0; h1; h2; h3] ++ str command in
      isUseCommand (frame "USE orders;"%string) = Ret true /\
      extractDatabaseFromUseCommand (frame "USE orders;"%string) = Ret (str "orders") /\
      isUseCommand (frame "use orders "%string) = Ret true /\
      extractDatabaseFromUseCommand (frame "use orders "%string) = Ret (str "orders") /\
      isUseCommand (frame "SELECT 1"%string) = Ret false).
Proof using unicodeToUpper_not_USE.
  split; [|split; [|split]].
  - apply isUseCommand_total.
  - split.
    + intros H.
      destruct (Nat.lt_ge_cases (length data) 8) as [Hs|Hl].
      { rewrite isUseCommand_short in H by assumption. discriminate. }
      destruct (long_data data Hl)
        as (h0 & h1 & h2 & h3 & c0 & c1 & c2 & c3 & rest & ->).
      rewrite isUseCommand_long in H. injection H as H.
      apply eqb_eq in H. unfold ToUpper in H.
      destruct (isASCII [c0; c1; c2; c3]) eqn:A.
      * cbn in H. injection H as H0 H1 H2 H3.
        apply upperByte_space in H3. subst c3.
        apply upperByte_is in H0; [|simpl; auto].
        apply upperByte_is in H1; [|simpl; auto].
        apply upperByte_is in H2; [|simpl; auto].
        exists h0, h1, h2, h3, c0, c1, c2, rest. auto.
      * exfalso. now apply (unicodeToUpper_not_USE [c0; c1; c2; c3]).
    + intros (h0 & h1 & h2 & h3 & c0 & c1 & c2 & rest & -> & H0 & H1 & H2).
      rewrite isUseCommand_long.
      destruct H0 as [-> | ->], H1 as [-> | ->], H2 as [-> | ->];
        reflexivity.
  - apply extractDatabaseFromUseCommand_run.
  - intros h0 h1 h2 h3 frame. repeat split; reflexivity.
Qed.

(** *** validateDatabaseName *)

Lemma HasPrefix_iff (s prefix : bytes) :
  HasPrefix s prefix = true <-> exists post, s = prefix ++ post.
Proof.
  revert s. induction prefix as [|p prefix IH]; intros s; simpl.
  - split; [intros _; now exists s | reflexivity].
  - destruct s as [|c s].
    + split; [discriminate | intros [post H]; discriminate].
    + rewrite andb_true_iff, IH. split.
      * intros [Hc [post ->]]. apply byte_dec_bl in Hc. subst. eauto.
      * intros [post H]. inversion H; subst.
        split; [now apply byte_dec_lb | eauto].
Qed.

Lemma Contains_iff (s sub : bytes) :
  Contains s sub = true <-> substring sub s.
Proof.
  unfold substring. induction s as [|c s IH].
  - simpl. rewrite orb_false_r, HasPrefix_iff. split.
    + intros [post H]. exists [], post. exact H.
    + intros (pre & post & H). symmetry in H.
      apply app_eq_nil in H as [-> H]. exists post. now symmetry.
  - cbn [Contains]. rewrite orb_true_iff, HasPrefix_iff, IH. split.
    + intros [[post H] | (pre & post & H)].
      * exists [], post. exact H.
      * exists (c :: pre), post. simpl. now rewrite H.
    + intros (pre & post & H). destruct pre as [|x pre].
      * left. exists post. exact H.
      * right. inversion H; subst. eauto.
Qed.

Lemma validChar_iff (b : byte) : validChar b = true <-> patternChar b.
Proof.
  unfold patternChar, between.
  destruct b; vm_compute; intuition congruence.
Qed.

Lemma validChar_ascii (name : bytes) :
  forallb validChar name = true -> isASCII name = true.
Proof.
  unfold isASCII. rewrite !forallb_forall. intros H b Hb.
  specialize (H b Hb). destruct b; solve [reflexivity | discriminate H].
Qed.

Lemma validPattern_iff (name : bytes) :
  validPattern_MatchString name = true <-> matchesPattern name.
Proof.
  unfold validPattern_MatchString, matchesPattern.
  destruct name as [|b name].
  - split; [discriminate | intros [H _]; congruence].
  - rewrite forallb_forall, Forall_forall. split.
    + intros H. split; [discriminate|].
      intros x Hx. now apply validChar_iff, H.
    + intros [_ H] x Hx. now apply validChar_iff, H.
Qed.

Lemma ToLower_valid (name : bytes) :
  validPattern_MatchString name = true ->
  ToLower name = map lowerByte name.
Proof.
  intros H. unfold ToLower. rewrite validChar_ascii; [reflexivity|].
  destruct name; [discriminate | exact H].
Qed.

Lemma Contains_false (s sub : bytes) :
  Contains s sub = false <-> ~ substring sub s.
Proof.
  rewrite <- Contains_iff. destruct (Contains s sub); split; intros H;
    congruence.
Qed.

Lemma validateDatabaseName_None (name : bytes) :
  validateDatabaseName name = None <-> validSchemaName name.
Proof.
  unfold validateDatabaseName, validSchemaName. split.
  - destruct (eqb name []); [discriminate|].
    destruct (Contains (ToLower name) (str "information_schema") ||
              Contains (ToLower name) (str "mysql") ||
              Contains (ToLower name) (str "performance_schema") ||
              Contains (ToLower name) (str "sys")) eqn:R; [discriminate|].
    destruct (validPattern_MatchString name) eqn:V; [|discriminate].
    intros _. split; [now apply validPattern_iff|].
    rewrite (ToLower_valid name V) in R.
    rewrite !orb_false_iff, !Contains_false in R.
    destruct R as [[[R1 R2] R3] R4].
    intros r [<- | [<- | [<- | [<- | []]]]]; assumption.
  - intros [M R].
    apply validPattern_iff in M. rewrite (ToLower_valid name M), M.
    assert (eqb name [] = false) as ->
        by (destruct name; [discriminate M | reflexivity]).
    assert (forall r, In r reserved ->
                      Contains (map lowerByte name) r = false) as C
        by (intros r Hr; now apply Contains_false, R).
    rewrite !C by (simpl; auto). reflexivity.
Qed.

(** C2: validation of a schema name succeeds exactly when the name matches
    [^[A-Za-z0-9_-]+$] and its lower-case form contains none of
    [information_schema], [mysql], [performance_schema], [sys]; for any
    other name [ensureDatabaseExists] fails with the invalid-name error and
    leaves the world as it was: no administrative connection is opened. *)
Theorem schema_name_validation (name : bytes) :
  (validateDatabaseName name = None <-> validSchemaName name) /\
  (~ validSchemaName name ->
   forall (config : Config) (w : World),
   exists why,
     ensureDatabaseExists config name w = (Some (InvalidName why), w)).
Proof.
  split; [apply validateDatabaseName_None|].
  intros H config w. unfold ensureDatabaseExists.
  destruct (validateDatabaseName name) as [why|] eqn:E.
  - now exists why.
  - apply validateDatabaseName_None in E. contradiction.
Qed.

(** *** The packet codec *)

Lemma int_range (b : byte) : (0 <= int b < 256)%Z.
Proof.
  unfold int. pose proof (Byte.to_N_bounded b). lia.
Qed.

Lemma byteOf_int (b : byte) : byteOf (int b) = b.
Proof.
  unfold byteOf, int. now rewrite N2Z.id, Byte.of_to_N.
Qed.

Lemma int_byteOf (z : Z) : (0 <= z < 256)%Z -> int (byteOf z) = z.
Proof.
  intros H. unfold byteOf, int.
  destruct (Byte.of_N (Z.to_N z)) as [b|] eqn:E.
  - apply Byte.to_of_N in E. rewrite E. lia.
  - pose proof (Byte.to_of_N_option_map (Z.to_N z)) as M.
    rewrite E in M. simpl in M.
    destruct (Z.to_N z <=? 255)%N eqn:L; [discriminate|].
    apply N.leb_gt in L. lia.
Qed.

Lemma lor_shiftl_low (a b k : Z) :
  (0 <= k)%Z -> (0 <= a < 2 ^ k)%Z ->
  Z.lor a (Z.shiftl b k) = (a + b * 2 ^ k)%Z.
Proof.
  intros Hk Ha.
  assert (Z.land a (Z.shiftl b k) = 0%Z) as D.
  { apply Z.bits_inj'. intros n Hn.
    rewrite Z.land_spec, Z.bits_0.
    destruct (Z.lt_ge_cases n k) as [Hlt|Hge].
    - rewrite Z.shiftl_spec_low by assumption. apply andb_false_r.
    - destruct (Z.eq_dec a 0) as [->|Hnz];
        [now rewrite Z.bits_0|].
      rewrite (Z.bits_above_log2 a n); [reflexivity | lia |].
      apply Z.lt_le_trans with k; [|assumption].
      apply Z.log2_lt_pow2; lia. }
  pose proof (Z.add_lor_land a (Z.shiftl b k)) as H.
  rewrite D, Z.shiftl_mul_pow2 in H by assumption.
  rewrite Z.shiftl_mul_pow2 by assumption. lia.
Qed.

(** The header's length field is read as a little-endian number. *)
Lemma packetLengthOf_value (h0 h1 h2 : byte) :
  packetLengthOf h0 h1 h2 = (int h0 + 256 * int h1 + 65536 * int h2)%Z.
Proof.
  unfold packetLengthOf.
  pose proof (int_range h0). pose proof (int_range h1).
  pose proof (int_range h2).
  rewrite (lor_shiftl_low (int h0) (int h1) 8) by lia.
  rewrite lor_shiftl_low by lia. lia.
Qed.

Lemma encode_header (h0 h1 h2 h3 : byte) (payload : bytes) :
  encode (packetLengthOf h0 h1 h2) (int h3) payload =
  [h0; h1; h2; h3] ++ payload.
Proof.
  forget_tables.
  unfold encode. rewrite packetLengthOf_value.
  pose proof (int_range h0). pose proof (int_range h1).
  pose proof (int_range h2).
  replace ((int h0 + 256 * int h1 + 65536 * int h2) mod 256)%Z
    with (int h0) by (Z.div_mod_to_equations; lia).
  replace ((int h0 + 256 * int h1 + 65536 * int h2) / 256 mod 256)%Z
    with (int h1) by (Z.div_mod_to_equations; lia).
  replace ((int h0 + 256 * int h1 + 65536 * int h2) / 65536)%Z
    with (int h2) by (Z.div_mod_to_equations; lia).
  now rewrite !byteOf_int.
Qed.

Lemma packetLengthOf_encode (length : Z) :
  (0 <= length < 2 ^ 24)%Z ->
  packetLengthOf (byteOf (length mod 256)) (byteOf (length / 256 mod 256))
                 (byteOf (length / 65536)) = length.
Proof.
  intros H. rewrite packetLengthOf_value.
  rewrite !int_byteOf by (Z.div_mod_to_equations; lia).
  Z.div_mod_to_equations; lia.
Qed.

(** [io.ReadFull] on a stream that still holds enough bytes returns the
    next [need] bytes, however the stream is cut into pieces. *)
Lemma readFull_enough (endErr : NetError) (segs : list bytes) :
  forall need got,
    need <= length (concat segs) ->
    exists segs',
      readFull segs endErr need got =
        ((got ++ firstn need (concat segs), None), segs') /\
      concat segs' = skipn need (concat segs).
Proof.
  induction segs as [|seg rest IH]; intros need got H.
  - simpl in H. assert (need = 0) as -> by lia.
    exists []. simpl. now rewrite app_nil_r.
  - destruct need as [|n].
    + exists (seg :: rest). simpl. now rewrite app_nil_r.
    + cbn [readFull concat]. rewrite firstn_app, skipn_app.
      destruct (length seg <=? S n) eqn:E.
      * apply Nat.leb_le in E.
        destruct (IH (S n - length seg) (got ++ seg)) as (segs' & R & C).
        { simpl in H. rewrite length_app in H. lia. }
        exists segs'. rewrite R, C.
        rewrite (@firstn_all2 _ (S n) seg), (@skipn_all2 _ (S n) seg)
          by assumption.
        now rewrite <- app_assoc.
      * apply Nat.leb_gt in E.
        exists (skipn (S n) seg :: rest).
        replace (S n - length seg) with 0 by lia.
        cbn [firstn skipn concat]. now rewrite app_nil_r.
Qed.

Lemma readFull_length (endErr : NetError) (segs : list bytes) :
  forall need got data segs',
    readFull segs endErr need got = ((data, None), segs') ->
    length data = length got + need.
Proof.
  induction segs as [|seg rest IH]; intros need got data segs' H.
  - destruct need; simpl in H; inversion H; subst. lia.
  - destruct need as [|n]; [simpl in H; inversion H; subst; lia|].
    cbn [readFull] in H. destruct (length seg <=? S n) eqn:E.
    + apply Nat.leb_le in E. apply IH in H.
      rewrite length_app in H. lia.
    + apply Nat.leb_gt in E.
      assert (data = got ++ firstn (S n) seg) as -> by congruence.
      rewrite length_app, length_firstn. lia.
Qed.

Lemma io_ReadFull_enough (c : Conn) (n : nat) :
  n <= length (concat (incoming c)) ->
  exists c',
    io_ReadFull c n = ((firstn n (concat (incoming c)), None), c') /\
    concat (incoming c') = skipn n (concat (incoming c)).
Proof.
  intros H. unfold io_ReadFull.
  destruct (readFull_enough (incomingEnd c) (incoming c) n [] H)
    as (segs' & R & C).
  rewrite R. exists (setIncoming c segs'). split; [reflexivity | exact C].
Qed.

(** Reading a stream that starts with the bytes of a well-formed packet
    gives back that packet and leaves the rest of the stream. *)
Lemma readPacket_decodes (c : Conn) (p : MySQLPacket) (rest : bytes)
      (timeout : Z) :
  wellFormed p ->
  concat (incoming c) = FullPacket p ++ rest ->
  exists c',
    readPacketWithTimeout c timeout = (inl p, c') /\
    concat (incoming c') = rest.
Proof.
  intros (HL & HS & HP & HF) HC.
  destruct p as [len seq payload full]. simpl in *. subst full.
  unfold encode in HC. cbn [app] in HC.
  unfold readPacketWithTimeout.
  destruct (io_ReadFull_enough c 4) as (c1 & R1 & C1).
  { rewrite HC. simpl. lia. }
  rewrite R1, HC. rewrite HC in C1. cbn [firstn skipn] in *.
  rewrite packetLengthOf_encode, int_byteOf by assumption.
  destruct (io_ReadFull_enough c1 (Z.to_nat len)) as (c2 & R2 & C2).
  { rewrite C1, length_app. lia. }
  rewrite R2, C1. rewrite C1 in C2.
  assert (Z.to_nat len = length payload) as E by lia.
  rewrite E in *.
  rewrite firstn_app, firstn_all, Nat.sub_diag, app_nil_r in *.
  rewrite skipn_app, skipn_all, Nat.sub_diag in C2.
  exists c2. split; [reflexivity | exact C2].
Qed.

(** Every packet that [readPacket] returns is one well-formed frame. *)
Lemma readPacket_wellFormed (c c' : Conn) (p : MySQLPacket) (timeout : Z) :
  readPacketWithTimeout c timeout = (inl p, c') -> wellFormed p.
Proof.
  unfold readPacketWithTimeout, io_ReadFull.
  destruct (readFull (incoming c) (incomingEnd c) 4 [])
    as [[header [e|]] segs] eqn:R1; [discriminate|].
  apply readFull_length in R1. simpl in R1.
  destruct header as [|h0 [|h1 [|h2 [|h3 [|]]]]]; try discriminate.
  cbn [incoming incomingEnd setIncoming].
  destruct (readFull segs (incomingEnd c)
                     (Z.to_nat (packetLengthOf h0 h1 h2)) [])
    as [[payload [e|]] segs2] eqn:R2; [discriminate|].
  apply readFull_length in R2. simpl in R2.
  intros H. injection H as <- _.
  pose proof (packetLengthOf_value h0 h1 h2) as V.
  pose proof (int_range h0). pose proof (int_range h1).
  pose proof (int_range h2). pose proof (int_range h3).
  unfold wellFormed. cbn [Length SequenceID Payload FullPacket].
  repeat split; try lia.
  symmetry. apply encode_header.
Qed.

(** C9, as the code has it: a packet whose [FullPacket] holds the frame's
    bytes (the 4-byte header with the little-endian 24-bit length and the
    sequence number, then the payload), as every packet built by
    [readPacket] does, is read back unchanged after [writePacket] has sent
    it, however the bytes are cut into pieces on the way. *)
Theorem frame_round_trip (p : MySQLPacket) :
  wellFormed p ->
  roundTrip p = inl p /\
  forall (c : Conn) (rest : bytes) (timeout : Z),
    concat (incoming c) = FullPacket p ++ rest ->
    exists c',
      readPacketWithTimeout c timeout = (inl p, c') /\
      concat (incoming c') = rest.
Proof.
  intros W. split.
  - unfold roundTrip, readPacket.
    destruct (readPacket_decodes
                (delivering (writesTo Upstream
                   (trace (snd (writePacket Upstream p quietWorld)))))
                p [] 0 W) as (c' & R & _).
    + simpl. now rewrite !app_nil_r.
    + now rewrite R.
  - intros c rest timeout HC. now apply readPacket_decodes.
Qed.

(** *** What each step does to the world *)

Lemma writesTo_app (p : Peer) (t1 t2 : list Event) :
  writesTo p (t1 ++ t2) = writesTo p t1 ++ writesTo p t2.
Proof. apply flat_map_app. Qed.

Lemma writesTo_emit_admin (p : Peer) (op : AdminOp) (w : World) :
  writesTo p (trace (emit (EvAdmin op) w)) = writesTo p (trace w).
Proof.
  cbn [emit trace]. rewrite writesTo_app. simpl. apply app_nil_r.
Qed.

(** The gate talks to the upstream over its own administrative
    connection: it neither reads nor writes the session's two
    connections. *)
Lemma ensureDatabaseExists_frame (config : Config) (name : bytes)
      (w : World) :
  let w' := snd (ensureDatabaseExists config name w) in
  clientConn w' = clientConn w /\ mysqlConn w' = mysqlConn w /\
  forall p, writesTo p (trace w') = writesTo p (trace w).
Proof.
  unfold ensureDatabaseExists.
  destruct (validateDatabaseName name); [simpl; auto|].
  destruct (adminReplies w (adminCalls w)) as [o pg [n|] cr];
    cbn [openFails pingFails existsCount createFails];
    destruct o, pg; try destruct (n =? 0)%Z; try destruct cr;
    cbn [snd]; repeat split; try reflexivity;
    intros p; rewrite ?writesTo_emit_admin; reflexivity.
Qed.

Lemma conn_Write_trace (p : Peer) (data : bytes) (w : World) :
  trace (snd (conn_Write p data w)) = trace w ++ [EvWrite p data].
Proof.
  unfold conn_Write. destruct (writeFails (conn p w)); [reflexivity|].
  destruct p; reflexivity.
Qed.

Lemma conn_Write_upstream (data : bytes) (w : World) :
  let w' := snd (conn_Write Upstream data w) in
  clientConn w' = clientConn w /\
  writesTo Upstream (trace w') = writesTo Upstream (trace w) ++ [data] /\
  writesTo Client (trace w') = writesTo Client (trace w).
Proof.
  cbn zeta. rewrite conn_Write_trace, !writesTo_app. simpl.
  rewrite app_nil_r. repeat split.
  unfold conn_Write. now destruct (writeFails (conn Upstream w)).
Qed.

Lemma conn_Write_client (data : bytes) (w : World) :
  let w' := snd (conn_Write Client data w) in
  writesTo Upstream (trace w') = writesTo Upstream (trace w) /\
  writesTo Client (trace w') = writesTo Client (trace w) ++ [data].
Proof.
  cbn zeta. rewrite conn_Write_trace, !writesTo_app. simpl.
  rewrite app_nil_r. split; reflexivity.
Qed.

Lemma readFrom_trace (p : Peer) (timeout : Z) (w : World) :
  trace (snd (readFrom p timeout w)) = trace w.
Proof.
  unfold readFrom.
  destruct (readPacketWithTimeout (conn p w) timeout) as [r c].
  destruct p; reflexivity.
Qed.

(** Up to the client's handshake response nothing is written to the
    upstream. *)
Lemma greetingForwarded_upstream (w : World) :
  writesTo Upstream (trace (snd (greetingForwarded w))) =
  writesTo Upstream (trace w).
Proof.
  unfold greetingForwarded.
  assert (writesTo Upstream (trace (emit EvDial w)) =
          writesTo Upstream (trace w)) as D.
  { cbn [emit trace]. rewrite writesTo_app. simpl. apply app_nil_r. }
  destruct (dialFails (emit EvDial w)); [exact D|].
  pose proof (readFrom_trace Upstream 0 (emit EvDial w)) as R1.
  destruct (readFrom Upstream 0 (emit EvDial w)) as [[greeting|e] w1];
    cbn [snd] in *; [|now rewrite R1].
  pose proof (conn_Write_client (FullPacket greeting) w1) as [W _].
  unfold writePacket.
  destruct (conn_Write Client (FullPacket greeting) w1) as [failed w2].
  cbn [snd] in W.
  destruct failed; [cbn [snd]; now rewrite W, R1|].
  pose proof (readFrom_trace Client 0 w2) as R2.
  destruct (readFrom Client 0 w2) as [[hs|e] w3];
    cbn [snd] in *; now rewrite R2, W, R1.
Qed.

(** C1: when the field extractor finds a schema name in the client's
    handshake response and the gate's call for that name returns an error,
    [handleConnection] returns at once, the session has failed, and the
    session has written nothing to the upstream: the handshake response is
    not forwarded. *)
Theorem gate_failure_blocks_handshake
        (config : Config) (w0 w w' : World) (clientHandshake : MySQLPacket)
        (name : bytes) (err : GateError) :
  greetingForwarded w0 = (Some clientHandshake, w) ->
  parseDatabaseName clientHandshake = Ret name ->
  name <> [] ->
  ensureDatabaseExists config name w = (Some err, w') ->
  handleConnection config w0 = Ret (Failed, w') /\
  handshakeGated config clientHandshake w = Ret (Failed, w') /\
  writesTo Upstream (trace w') = writesTo Upstream (trace w0).
Proof.
  intros G P N E.
  assert (handshakeGated config clientHandshake w = Ret (Failed, w')) as H.
  { unfold handshakeGated. rewrite P. cbn [bind].
    assert (eqb name [] = false) as ->
        by (destruct name; [congruence | reflexivity]).
    cbn [negb]. now rewrite E. }
  split; [|split; [exact H|]].
  - unfold handleConnection. now rewrite G.
  - pose proof (ensureDatabaseExists_frame config name w) as (_ & _ & F).
    rewrite E in F. cbn [snd] in F. rewrite F.
    pose proof (greetingForwarded_upstream w0) as U.
    now rewrite G in U.
Qed.

(** *** The relay loop *)

Lemma interceptUse_frame (config : Config) (data : bytes) (w w1 : World) :
  interceptUse config data w = Ret w1 ->
  clientConn w1 = clientConn w /\
  forall p, writesTo p (trace w1) = writesTo p (trace w).
Proof.
  unfold interceptUse.
  destruct (isUseCommand data) as [[|]| |]; cbn [bind];
    try discriminate; [|intros [= <-]; auto].
  destruct (extractDatabaseFromUseCommand data) as [name| |]; cbn [bind];
    try discriminate.
  destruct (negb (eqb name [])); [|intros [= <-]; auto].
  pose proof (ensureDatabaseExists_frame config name w) as (C & _ & F).
  destruct (ensureDatabaseExists config name w) as [e w2].
  intros [= <-]. auto.
Qed.

Lemma conn_Read_ok (c c' : Conn) (k : nat) (data : bytes) :
  conn_Read c k = ((data, None), c') ->
  length data <= k /\
  concat (incoming c) = data ++ concat (incoming c').
Proof.
  unfold conn_Read. destruct (incoming c) as [|seg rest]; [discriminate|].
  destruct (length seg <=? k) eqn:E; intros [= <- <-]; cbn [concat].
  - apply Nat.leb_le in E. split; [exact E | reflexivity].
  - split; [rewrite length_firstn; lia|].
    cbn [setIncoming incoming concat].
    now rewrite app_assoc, firstn_skipn.
Qed.

Lemma conn_Read_failed (c c' : Conn) (k : nat) (data : bytes)
      (e : NetError) :
  conn_Read c k = ((data, Some e), c') -> c' = c.
Proof.
  unfold conn_Read. destruct (incoming c) as [|seg rest].
  - now intros [= _ _ <-].
  - destruct (length seg <=? k); discriminate.
Qed.

Lemma interceptUse_total (config : Config) (data : bytes) (w : World) :
  exists w1, interceptUse config data w = Ret w1.
Proof.
  unfold interceptUse.
  destruct (isUseCommand_total data) as [[|] ->]; cbn [bind]; [|eauto].
  rewrite extractDatabaseFromUseCommand_run. cbn [bind].
  destruct (negb (eqb (takeWhile notDelimiter (skipn 8 data)) []));
    [|eauto].
  destruct (ensureDatabaseExists config
              (takeWhile notDelimiter (skipn 8 data)) w). eauto.
Qed.

(** One pass of the loop body: the chunk goes to the upstream as it is. *)
Lemma forwardChunk_forwards (config : Config) (data : bytes) (w : World) :
  exists failed w2,
    forwardChunk config data w = Ret (failed, w2) /\
    clientConn w2 = clientConn w /\
    writesTo Upstream (trace w2) = writesTo Upstream (trace w) ++ [data].
Proof.
  unfold forwardChunk.
  destruct (interceptUse_total config data w) as [w1 I]. rewrite I.
  cbn [bind]. apply interceptUse_frame in I as [C F].
  pose proof (conn_Write_upstream data w1) as (C2 & U & _).
  destruct (conn_Write Upstream data w1) as [failed w2]. cbn [snd] in *.
  exists failed, w2. split; [reflexivity|].
  split; [congruence | now rewrite U, F].
Qed.

(** What the loop has written when it stops, for any budget of
    iterations: the client's bytes it has read, in order and unchanged,
    each write holding what one read returned. *)
Lemma forward_stream (config : Config) (fuel : nat) :
  forall (w w' : World) (exit : LoopExit),
    forwardWithUseInterception fuel config w = (exit, w') ->
    exit <> Crashed /\
    exists writes,
      writesTo Upstream (trace w') = writesTo Upstream (trace w) ++ writes /\
      Forall (fun d => 0 < length d <= bufferSize) writes /\
      concat (incoming (clientConn w)) =
        concat writes ++ concat (incoming (clientConn w')).
Proof.
  induction fuel as [|fuel IH]; intros w w' exit H.
  - injection H as <- <-. split; [discriminate|].
    exists []. now rewrite app_nil_r.
  - cbn [forwardWithUseInterception] in H.
    destruct (conn_Read (clientConn w) bufferSize) as [[data [e|]] c] eqn:R.
    + apply conn_Read_failed in R. subst c. injection H as <- <-.
      split; [discriminate|]. exists []. now rewrite app_nil_r.
    + apply conn_Read_ok in R as [Hlen Hcat].
      destruct (0 <? length data) eqn:Hpos.
      * apply Nat.ltb_lt in Hpos.
        destruct (forwardChunk_forwards config data (setConn Client c w))
          as (failed & w2 & F & C & U).
        rewrite F in H. cbn [setConn clientConn trace] in C, U.
        destruct failed.
        -- injection H as <- <-. split; [discriminate|].
           exists [data]. rewrite U, C, Hcat. cbn [concat].
           rewrite app_nil_r. repeat split.
           constructor; [lia | constructor].
        -- apply IH in H as (Hne & writes & W & A & S).
           split; [exact Hne|].
           exists (data :: writes). rewrite W, U, <- app_assoc.
           split; [reflexivity|]. split; [constructor; [lia | exact A]|].
           cbn [concat]. rewrite <- app_assoc, <- S, C. exact Hcat.
      * apply Nat.ltb_ge in Hpos.
        assert (data = []) as -> by (destruct data; [reflexivity | simpl in Hpos; lia]).
        apply IH in H as (Hne & writes & W & A & S).
        split; [exact Hne|].
        exists writes. cbn [setConn clientConn trace] in W, S.
        split; [exact W|]. split; [exact A|]. now rewrite Hcat, S.
Qed.

(** With [relayFuel] iterations the loop ends on an error of a read or of
    a write, the only ways the code leaves it. *)
Lemma forward_terminates (config : Config) (fuel : nat) :
  forall w,
    length (incoming (clientConn w)) +
    length (concat (incoming (clientConn w))) < fuel ->
    fst (forwardWithUseInterception fuel config w) <> OutOfFuel.
Proof.
  induction fuel as [|fuel IH]; intros w H; [lia|].
  cbn [forwardWithUseInterception].
  destruct (conn_Read (clientConn w) bufferSize) as [[data [e|]] c] eqn:R;
    [discriminate|].
  assert (length (incoming c) + length (concat (incoming c)) < fuel) as M.
  { unfold conn_Read in R.
    destruct (incoming (clientConn w)) as [|seg rest]; [discriminate|].
    cbn [concat length] in H. rewrite length_app in H.
    destruct (length seg <=? bufferSize) eqn:E.
    - assert (c = setIncoming (clientConn w) rest) as -> by congruence.
      cbn [setIncoming incoming]. lia.
    - assert (c = setIncoming (clientConn w) (skipn bufferSize seg :: rest))
        as -> by congruence.
      apply Nat.leb_gt in E. cbn [setIncoming incoming concat length].
      rewrite length_app, length_skipn.
      assert (0 < bufferSize) by (unfold bufferSize; lia). lia. }
  destruct (0 <? length data).
  - destruct (forwardChunk_forwards config data (setConn Client c w))
      as (failed & w2 & F & C & _).
    rewrite F. destruct failed; [discriminate|].
    apply IH. cbn [setConn clientConn] in C. now rewrite C.
  - apply IH. exact M.
Qed.

(** *** The reply that does not come *)

(** Writing [okPacket] hands the connection no bytes at all: its
    [FullPacket] was never filled in. *)
Lemma okPacket_write_is_empty (to : Peer) (w : World) :
  trace (snd (writePacket to okPacket w)) = trace w ++ [EvWrite to []].
Proof. apply conn_Write_trace. Qed.

(** Whenever the read of the upstream's reply fails, the only thing the
    session then does for the client is that empty write. *)
Lemma reply_error_writes_no_bytes
      (config : Config) (clientHandshake : MySQLPacket) (w w1 w2 w3 : World)
      (name : bytes) (e : PacketError) :
  parseDatabaseName clientHandshake = Ret name ->
  (if negb (eqb name []) then ensureDatabaseExists config name w
   else (None, w)) = (None, w1) ->
  writePacket Upstream clientHandshake w1 = (false, w2) ->
  readFrom Upstream handshakeTimeout w2 = (inr e, w3) ->
  exists state w4,
    handshakeGated config clientHandshake w = Ret (state, w4) /\
    trace w4 = trace w3 ++ [EvWrite Client []] /\
    (state = Relaying <-> fst (writePacket Client okPacket w3) = false).
Proof.
  intros P G F R. unfold handshakeGated. rewrite P. cbn [bind].
  rewrite G, F, R.
  pose proof (okPacket_write_is_empty Client w3) as T.
  destruct (writePacket Client okPacket w3) as [failed w4]. cbn [fst snd] in *.
  destruct failed; eexists _, w4; (split; [reflexivity|]);
    (split; [exact T|]); split; congruence.
Qed.

(** C3, what the code does: in the session whose upstream stays silent
    after the handshake response until the wait times out, the write that
    should carry the synthesized OK packet carries no bytes, while the
    frame of that packet would be the 11 bytes of its header and payload;
    that write fails, the deadline of the client's connection having
    passed, and the session ends there instead of going on to relay. *)
Theorem reply_timeout_sends_no_bytes (config : Config) :
  let result := handleConnection config silentUpstream in
  exists w',
    result = Ret (Failed, w') /\
    writesTo Client (trace w') = [greeting; []] /\
    writesTo Upstream (trace w') = [handshakeOf []] /\
    length (encode 7 (SequenceID okPacket) (Payload okPacket)) = 11.
Proof.
  vm_compute. eexists. repeat split.
Qed.

(** *** More on the packet codec *)

Lemma readFull_consumes (endErr : NetError) (segs : list bytes) :
  forall need got data segs',
    readFull segs endErr need got = ((data, None), segs') ->
    exists taken,
      data = got ++ taken /\ length taken = need /\
      concat segs = taken ++ concat segs'.
Proof.
  induction segs as [|seg rest IH]; intros need got data segs' H.
  - destruct need; simpl in H; [|discriminate].
    injection H as <- <-. exists []. now rewrite app_nil_r.
  - destruct need as [|n].
    + simpl in H. injection H as <- <-. exists []. now rewrite app_nil_r.
    + cbn [readFull] in H. destruct (length seg <=? S n) eqn:E.
      * apply Nat.leb_le in E.
        apply IH in H as (taken & D & L & C).
        exists (seg ++ taken). rewrite D, length_app, <- app_assoc.
        cbn [concat]. rewrite C, <- app_assoc.
        repeat split. lia.
      * apply Nat.leb_gt in E.
        assert (data = got ++ firstn (S n) seg) as -> by congruence.
        assert (segs' = skipn (S n) seg :: rest) as -> by congruence.
        exists (firstn (S n) seg). rewrite length_firstn. cbn [concat].
        rewrite app_assoc, firstn_skipn. repeat split. lia.
Qed.

Lemma readFull_short (endErr : NetError) (segs : list bytes) :
  forall need got,
    length (concat segs) < need ->
    readFull segs endErr need got =
    ((got ++ concat segs,
      Some (shortReadError (got ++ concat segs) endErr)), []).
Proof.
  induction segs as [|seg rest IH]; intros need got H.
  - destruct need; [simpl in H; lia|]. simpl. now rewrite app_nil_r.
  - destruct need as [|n]; [simpl in H; lia|].
    cbn [readFull concat]. cbn [concat] in H. rewrite length_app in H.
    assert ((length seg <=? S n) = true) as -> by (apply Nat.leb_le; lia).
    rewrite IH by lia. now rewrite <- app_assoc.
Qed.

Lemma io_ReadFull_conn (c c' : Conn) (n : nat)
      (r : bytes * option NetError) :
  io_ReadFull c n = (r, c') ->
  incomingEnd c' = incomingEnd c /\ writeFails c' = writeFails c.
Proof.
  unfold io_ReadFull.
  destruct (readFull (incoming c) (incomingEnd c) n []) as [r0 segs].
  intros [= _ <-]. split; reflexivity.
Qed.

Lemma readPacket_consumes
      (c c' : Conn) (p : MySQLPacket) (timeout : Z) :
  readPacketWithTimeout c timeout = (inl p, c') ->
  concat (incoming c) = FullPacket p ++ concat (incoming c') /\
  incomingEnd c' = incomingEnd c /\ writeFails c' = writeFails c.
Proof.
  unfold readPacketWithTimeout.
  destruct (io_ReadFull c 4) as [[header [e|]] c1] eqn:R1; [discriminate|].
  pose proof (io_ReadFull_conn _ _ _ _ R1) as [E1 F1].
  unfold io_ReadFull in R1.
  destruct (readFull (incoming c) (incomingEnd c) 4 []) as [r1 segs1] eqn:Q1.
  injection R1 as -> <-.
  apply readFull_consumes in Q1 as (taken1 & D1 & L1 & C1).
  simpl in D1. subst taken1.
  destruct header as [|h0 [|h1 [|h2 [|h3 [|]]]]]; try discriminate.
  destruct (io_ReadFull (setIncoming c segs1)
              (Z.to_nat (packetLengthOf h0 h1 h2)))
    as [[payload [e|]] c2] eqn:R2; [discriminate|].
  pose proof (io_ReadFull_conn _ _ _ _ R2) as [E2 F2].
  unfold io_ReadFull in R2. cbn [setIncoming incoming incomingEnd] in R2.
  destruct (readFull segs1 (incomingEnd c)
              (Z.to_nat (packetLengthOf h0 h1 h2)) []) as [r2 segs2] eqn:Q2.
  injection R2 as -> <-.
  apply readFull_consumes in Q2 as (taken2 & D2 & L2 & C2).
  simpl in D2. subst taken2.
  intros [= <- <-]. cbn [FullPacket setIncoming incoming incomingEnd writeFails].
  split; [rewrite C1, C2; reflexivity | split; reflexivity].
Qed.

(** X1: a successful [readPacket] takes exactly one frame off the stream:
    the packet is well formed, its [FullPacket] is the prefix of the stream
    that was consumed, and the rest of the stream, its end and the write
    side of the connection are left as they were. *)
Theorem readPacket_takes_one_frame
        (c c' : Conn) (p : MySQLPacket) (timeout : Z) :
  readPacketWithTimeout c timeout = (inl p, c') ->
  wellFormed p /\
  concat (incoming c) = FullPacket p ++ concat (incoming c') /\
  incomingEnd c' = incomingEnd c /\ writeFails c' = writeFails c.
Proof.
  intros H. split.
  - now apply readPacket_wellFormed in H.
  - now apply readPacket_consumes in H.
Qed.

(** X2: a stream that ends too early makes [readPacket] fail, and the error
    tells where: fewer than 4 bytes give the header error, a complete header
    followed by fewer bytes than it announces gives the payload error; the
    cause is the stream's own end, with [io.EOF] turned into
    [io.ErrUnexpectedEOF] once part of the data had arrived. *)
Theorem readPacket_short_stream (c : Conn) (timeout : Z) :
  (length (concat (incoming c)) < 4 ->
   fst (readPacketWithTimeout c timeout) =
   inr (HeaderReadFailed
          (shortReadError (concat (incoming c)) (incomingEnd c)))) /\
  (forall h0 h1 h2 h3 body,
      concat (incoming c) = h0 :: h1 :: h2 :: h3 :: body ->
      (Z.of_nat (length body) < packetLengthOf h0 h1 h2)%Z ->
      fst (readPacketWithTimeout c timeout) =
      inr (PayloadReadFailed (shortReadError body (incomingEnd c)))).
Proof.
  split.
  - intros H. unfold readPacketWithTimeout, io_ReadFull.
    rewrite readFull_short by assumption. reflexivity.
  - intros h0 h1 h2 h3 body HC HL. unfold readPacketWithTimeout.
    destruct (io_ReadFull_enough c 4) as (c1 & R1 & C1).
    { rewrite HC. simpl. lia. }
    pose proof (io_ReadFull_conn _ _ _ _ R1) as [E1 _].
    rewrite R1, HC. rewrite HC in C1. cbn [firstn skipn] in *.
    unfold io_ReadFull. rewrite readFull_short by (rewrite C1; lia).
    now rewrite C1, E1.
Qed.

(** *** More on parseDatabaseName *)

Lemma dropWhile_head (keep : byte -> bool) (l : bytes) :
  dropWhile keep l = [] \/
  exists b t, dropWhile keep l = b :: t /\ keep b = false.
Proof.
  forget_tables.
  induction l as [|b l IH]; simpl; [now left|].
  destruct (keep b) eqn:E; [exact IH | right; eauto].
Qed.

Lemma dropWhile_all (keep : byte -> bool) (l : bytes) :
  forallb keep l = true -> dropWhile keep l = [].
Proof.
  forget_tables.
  induction l as [|b l IH]; simpl; [reflexivity|].
  intros H. apply andb_true_iff in H as [-> H]. now apply IH.
Qed.

Lemma notNul_false (b : byte) : notNul b = false -> b = x00.
Proof.
  forget_tables.
  unfold notNul. intros H. apply negb_false_iff in H. now apply byte_dec_bl.
Qed.

Lemma Contains_byte (s : bytes) (b : byte) :
  Contains s [b] = true <-> In b s.
Proof.
  forget_tables.
  rewrite Contains_iff. unfold substring. split.
  - intros (pre & post & ->). apply in_or_app. right. now left.
  - intros H. apply in_split in H as (pre & post & ->). now exists pre, post.
Qed.

(** What the filter on a candidate lets through. *)
Lemma acceptCandidate_cases (candidate : bytes) :
  (~ substring (str "_client_") candidate -> ~ In x0c candidate ->
   acceptCandidate candidate = candidate) /\
  (substring (str "_client_") candidate \/ In x0c candidate ->
   acceptCandidate candidate = []).
Proof.
  forget_tables.
  unfold acceptCandidate, looksLikeDatabase. split.
  - intros H1 H2. apply Contains_false in H1.
    assert (Contains candidate [x0c] = false) as ->.
    { destruct (Contains candidate [x0c]) eqn:E; [|reflexivity].
      apply Contains_byte in E. contradiction. }
    rewrite H1. destruct candidate; reflexivity.
  - intros [H | H].
    + apply Contains_iff in H. rewrite H.
      now rewrite andb_false_r.
    + apply Contains_byte in H. rewrite H. now rewrite andb_false_r.
Qed.

(** The walk on a payload whose fixed bytes, user name and credential block
    are all there and are followed by at least one more byte. *)
Lemma handshakeSchema_layout
      (fixed user credentials trailing : bytes) (n : byte) :
  length fixed = 32 ->
  forallb notNul user = true ->
  length credentials = Byte.to_nat n ->
  trailing <> [] ->
  handshakeSchema (fixed ++ user ++ x00 :: n :: credentials ++ trailing) =
  if isAuthMethod (takeWhile notNul trailing) then
    match dropWhile notNul trailing with
    | [] => []
    | _ :: following => acceptCandidate (takeWhile notNul following)
    end
  else acceptCandidate (takeWhile notNul trailing).
Proof.
  forget_tables.
  intros Hfixed Huser Hcred Htrail. unfold handshakeSchema.
  assert ((length (fixed ++ user ++ x00 :: n :: credentials ++ trailing)
           <? 32) = false) as ->.
  { apply Nat.ltb_ge. rewrite length_app. lia. }
  rewrite skipn_app, <- Hfixed, skipn_all, Nat.sub_diag. cbn [skipn app].
  rewrite dropWhile_app_stop by (assumption || reflexivity).
  assert ((length (credentials ++ trailing) <=? Byte.to_nat n) = false) as ->.
  { apply Nat.leb_gt. rewrite length_app.
    destruct trailing; [congruence | simpl; lia]. }
  rewrite skipn_app, <- Hcred, skipn_all, Nat.sub_diag. reflexivity.
Qed.

(** X3: when no authentication-method tag follows the credential block, the
    first trailing field itself is the schema-name candidate: it is returned
    as the schema name unless it contains [_client_] or the byte 0x0c, in
    which case no name is returned. *)
Theorem schema_field_without_auth_tag
        (packet : MySQLPacket) (fixed user credentials db tail : bytes)
        (n : byte) :
  length fixed = 32 ->
  forallb notNul user = true ->
  length credentials = Byte.to_nat n ->
  forallb notNul db = true ->
  ~ In db [str "mysql_native_password"; str "caching_sha2_password";
           str "sha256_password"] ->
  (tail = [] \/ exists t, tail = x00 :: t) ->
  Payload packet = fixed ++ user ++ x00 :: n :: credentials ++ db ++ tail ->
  (~ substring (str "_client_") db -> ~ In x0c db ->
   parseDatabaseName packet = Ret db) /\
  (substring (str "_client_") db \/ In x0c db ->
   parseDatabaseName packet = Ret []).
Proof.
  forget_tables.
  intros Hfixed Huser Hcred Hdb Hauth Htail HP.
  assert (parseDatabaseName packet = Ret (acceptCandidate db)) as ->.
  { rewrite parseDatabaseName_walk, HP. f_equal.
    destruct (db ++ tail) as [|b0 trailing] eqn:E.
    - apply app_eq_nil in E as [-> _].
      unfold handshakeSchema.
      assert ((length (fixed ++ user ++ x00 :: n :: credentials ++ [])
               <? 32) = false) as ->.
      { apply Nat.ltb_ge. rewrite length_app. lia. }
      rewrite skipn_app, <- Hfixed, skipn_all, Nat.sub_diag. cbn [skipn app].
      rewrite dropWhile_app_stop by (assumption || reflexivity).
      rewrite app_nil_r.
      assert ((length credentials <=? Byte.to_nat n) = true) as ->
          by (apply Nat.leb_le; lia).
      reflexivity.
    - rewrite handshakeSchema_layout by (assumption || discriminate).
      rewrite <- E.
      assert (takeWhile notNul (db ++ tail) = db) as ->.
      { apply takeWhile_app_stop; [assumption|].
        destruct Htail as [-> | [t ->]]; [exact I | reflexivity]. }
      destruct (isAuthMethod db) eqn:A; [|reflexivity].
      apply isAuthMethod_iff in A. contradiction. }
  destruct (acceptCandidate_cases db) as [K D].
  split; [intros H1 H2; f_equal; now apply K | intros H; f_equal; now apply D].
Qed.

(** X4: a schema name that the extractor returns is never made up: it sits
    in the payload, at offset 34 or later, it runs up to a NUL byte or to
    the end of the payload, and it holds no NUL, no 0x0c and no
    [_client_]. *)
Theorem extracted_name_is_a_payload_field
        (packet : MySQLPacket) (name : bytes) :
  parseDatabaseName packet = Ret name ->
  name <> [] ->
  (exists before after,
      Payload packet = before ++ name ++ after /\
      34 <= length before /\
      (after = [] \/ exists t, after = x00 :: t)) /\
  ~ In x00 name /\ ~ In x0c name /\ ~ substring (str "_client_") name.
Proof.
  forget_tables.
  rewrite parseDatabaseName_walk. intros H Hne. injection H as H.
  assert (forall l,
             acceptCandidate (takeWhile notNul l) = name ->
             takeWhile notNul l = name /\
             ~ In x00 name /\ ~ In x0c name /\
             ~ substring (str "_client_") name) as Accept.
  { intros l A. unfold acceptCandidate in A.
    destruct (looksLikeDatabase (takeWhile notNul l)) eqn:L;
      [|congruence].
    unfold looksLikeDatabase in L.
    apply andb_true_iff in L as [L L3]. apply andb_true_iff in L as [_ L2].
    apply negb_true_iff in L2, L3. rewrite <- A.
    split; [reflexivity|]. split; [|split].
    - intros I. pose proof (takeWhile_all notNul l) as T.
      rewrite forallb_forall in T. now apply T in I.
    - intros I. apply Contains_byte in I. congruence.
    - now apply Contains_false. }
  assert (forall l,
             dropWhile notNul l = [] \/ exists t, dropWhile notNul l = x00 :: t)
    as Stop.
  { intros l. destruct (dropWhile_head notNul l) as [E | (b & t & E & K)];
      [now left | right].
    apply notNul_false in K. subst b. eauto. }
  unfold handshakeSchema in H.
  set (P := Payload packet) in *.
  destruct (length P <? 32) eqn:Hshort; [congruence|].
  apply Nat.ltb_ge in Hshort.
  pose proof (firstn_skipn 32 P) as S0.
  pose proof (takeWhile_dropWhile notNul (skipn 32 P)) as S1.
  destruct (dropWhile notNul (skipn 32 P)) as [|nul [|n credentials]];
    try congruence.
  destruct (length credentials <=? Byte.to_nat n) eqn:Hcred; [congruence|].
  apply Nat.leb_gt in Hcred.
  pose proof (firstn_skipn (Byte.to_nat n) credentials) as S2.
  set (T := skipn (Byte.to_nat n) credentials) in *.
  pose proof (takeWhile_dropWhile notNul T) as S3.
  assert (length (firstn 32 P) = 32) as L0
      by (rewrite length_firstn; lia).
  destruct (isAuthMethod (takeWhile notNul T)).
  - destruct (dropWhile notNul T) as [|nul2 following] eqn:ED;
      [congruence|].
    apply Accept in H as (E & N).
    pose proof (takeWhile_dropWhile notNul following) as S4.
    split; [|exact N].
    exists (firstn 32 P ++ takeWhile notNul (skipn 32 P) ++ nul :: n ::
            firstn (Byte.to_nat n) credentials ++ takeWhile notNul T ++ [nul2]),
           (dropWhile notNul following).
    split; [|split; [|apply Stop]].
    + rewrite <- E.
      repeat (rewrite <- app_assoc || rewrite <- app_comm_cons
              || rewrite app_nil_l).
      now rewrite S4, S3, S2, S1, S0.
    + rewrite !length_app, L0. simpl. lia.
  - apply Accept in H as (E & N).
    split; [|exact N].
    exists (firstn 32 P ++ takeWhile notNul (skipn 32 P) ++ nul :: n ::
            firstn (Byte.to_nat n) credentials),
           (dropWhile notNul T).
    split; [|split; [|apply Stop]].
    + rewrite <- E.
      repeat (rewrite <- app_assoc || rewrite <- app_comm_cons
              || rewrite app_nil_l).
      now rewrite S3, S2, S1, S0.
    + rewrite !length_app, L0. simpl. lia.
Qed.

(** X5: a handshake response that is cut short gives no schema name: when
    it ends inside the user name, right after the user name, inside the
    credential block, or with an authentication-method tag that nothing
    follows. *)
Theorem truncated_handshake_gives_no_name
        (packet : MySQLPacket) (fixed user : bytes) :
  length fixed = 32 ->
  forallb notNul user = true ->
  Payload packet = fixed ++ user \/
  Payload packet = fixed ++ user ++ [x00] \/
  (exists n credentials,
      Payload packet = fixed ++ user ++ x00 :: n :: credentials /\
      length credentials <= Byte.to_nat n) \/
  (exists n credentials auth tail,
      Payload packet =
        fixed ++ user ++ x00 :: n :: credentials ++ auth ++ tail /\
      length credentials = Byte.to_nat n /\
      In auth [str "mysql_native_password"; str "caching_sha2_password";
               str "sha256_password"] /\
      (tail = [] \/ tail = [x00])) ->
  parseDatabaseName packet = Ret [].
Proof.
  forget_tables.
  intros Hfixed Huser H. rewrite parseDatabaseName_walk. f_equal.
  assert (forall rest, (length (fixed ++ rest) <? 32) = false) as Long.
  { intros rest. apply Nat.ltb_ge. rewrite length_app. lia. }
  assert (forall rest, skipn 32 (fixed ++ rest) = rest) as Skip.
  { intros rest.
    now rewrite skipn_app, <- Hfixed, skipn_all, Nat.sub_diag. }
  destruct H as [-> | [-> | [(n & credentials & -> & Hc) |
                             (n & credentials & auth & tail & -> & Hc & Ha & Ht)]]].
  - unfold handshakeSchema. rewrite Long, Skip.
    now rewrite dropWhile_all.
  - unfold handshakeSchema. rewrite Long, Skip.
    now rewrite dropWhile_app_stop.
  - unfold handshakeSchema. rewrite Long, Skip.
    rewrite dropWhile_app_stop by (assumption || reflexivity).
    apply Nat.leb_le in Hc. now rewrite Hc.
  - assert (forallb notNul auth = true /\ auth <> []) as [Hnn Hne].
    { simpl in Ha.
      destruct Ha as [<- | [<- | [<- | []]]]; split;
        solve [reflexivity | discriminate]. }
    rewrite handshakeSchema_layout;
      [|assumption..|destruct auth; [congruence | discriminate]].
    assert (takeWhile notNul (auth ++ tail) = auth) as ->.
    { apply takeWhile_app_stop; [assumption|].
      destruct Ht as [-> | ->]; [exact I | reflexivity]. }
    apply isAuthMethod_iff in Ha. rewrite Ha.
    assert (dropWhile notNul (auth ++ tail) = tail) as ->.
    { apply dropWhile_app_stop; [assumption|].
      destruct Ht as [-> | ->]; [exact I | reflexivity]. }
    destruct Ht as [-> | ->]; reflexivity.
Qed.

(** *** More on the USE classifier *)

Lemma isUseCommand_true_inv (data : bytes) :
  isUseCommand data = Ret true -> usePrefixAt4 data.
Proof using unicodeToUpper_not_USE.
  intros H.
  destruct (Nat.lt_ge_cases (length data) 8) as [Hs|Hl].
  { rewrite isUseCommand_short in H by assumption. discriminate. }
  destruct (long_data data Hl)
    as (h0 & h1 & h2 & h3 & c0 & c1 & c2 & c3 & rest & ->).
  rewrite isUseCommand_long in H. injection H as H.
  apply eqb_eq in H. unfold ToUpper in H.
  destruct (isASCII [c0; c1; c2; c3]) eqn:A.
  - cbn in H. injection H as H0 H1 H2 H3.
    apply upperByte_space in H3. subst c3.
    apply upperByte_is in H0; [|simpl; auto].
    apply upperByte_is in H1; [|simpl; auto].
    apply upperByte_is in H2; [|simpl; auto].
    exists h0, h1, h2, h3, c0, c1, c2, rest. auto.
  - exfalso. now apply (unicodeToUpper_not_USE [c0; c1; c2; c3]).
Qed.

(** X6: a chunk whose fifth byte is not [U] or [u] is never taken for a USE
    command, whatever follows: this is so for every command packet of the
    protocol, whose payload starts with the command byte (0x03 for a query),
    so that [USE db] sent as a query passes without any provisioning: the
    chunk is written to the upstream and nothing else happens. *)
Theorem command_byte_hides_use
        (config : Config) (w : World) (h0 h1 h2 h3 command : byte)
        (text : bytes) :
  command <> "U"%byte -> command <> "u"%byte ->
  let data := h0 :: h1 :: h2 :: h3 :: command :: text in
  isUseCommand data = Ret false /\
  forwardChunk config data w = Ret (conn_Write Upstream data w).
Proof using unicodeToUpper_not_USE.
  intros HU Hu data.
  assert (isUseCommand data = Ret false) as E.
  { destruct (isUseCommand_total data) as [[|] M]; [|exact M].
    apply isUseCommand_true_inv in M.
    destruct M as (a0 & a1 & a2 & a3 & c0 & c1 & c2 & rest & D & [C | C] & _);
      unfold data in D; injection D as _ _ _ _ D _; congruence. }
  split; [exact E|].
  unfold forwardChunk, interceptUse. rewrite E. reflexivity.
Qed.

(** X7: the classifier looks at bytes 4 to 7 of a chunk and at nothing
    else, and the name it takes out does not stop where the first frame
    ends: a USE frame that arrives behind another frame in the same read is
    not seen, and a name not closed by a delimiter runs on into the bytes
    that follow it. *)
Theorem classifier_ignores_frame_boundaries
        (first more name : bytes) :
  length first = 8 ->
  forallb notDelimiter name = true ->
  isUseCommand (first ++ more) = isUseCommand first /\
  extractDatabaseFromUseCommand (first ++ name ++ more) =
    Ret (name ++ takeWhile notDelimiter more).
Proof.
  intros L N. split.
  - do 8 (destruct first as [|? first]; [discriminate L|]).
    destruct first; [|discriminate L]. reflexivity.
  - rewrite extractDatabaseFromUseCommand_run.
    rewrite skipn_app, <- L, skipn_all, Nat.sub_diag. cbn [skipn app].
    f_equal. clear L. induction name as [|b name IH]; [reflexivity|].
    cbn [forallb] in N. apply andb_true_iff in N as [Hb N].
    cbn [app takeWhile]. rewrite Hb. now rewrite IH.
Qed.

(** *** More on validateDatabaseName *)

Lemma validChar_lowerByte (b : byte) : validChar (lowerByte b) = validChar b.
Proof. forget_tables. destruct b; reflexivity. Qed.

Lemma lowerByte_idempotent (b : byte) : lowerByte (lowerByte b) = lowerByte b.
Proof. forget_tables. destruct b; reflexivity. Qed.

Lemma lowerByte_upperByte (b : byte) : lowerByte (upperByte b) = lowerByte b.
Proof. forget_tables. destruct b; reflexivity. Qed.

Lemma validChar_upperByte (b : byte) : validChar (upperByte b) = validChar b.
Proof. forget_tables. destruct b; reflexivity. Qed.

Lemma validSchemaName_fold (f : byte -> byte) (name : bytes) :
  (forall b, validChar (f b) = validChar b) ->
  (forall b, lowerByte (f b) = lowerByte b) ->
  validSchemaName (map f name) <-> validSchemaName name.
Proof.
  forget_tables.
  intros V L. unfold validSchemaName.
  assert (map lowerByte (map f name) = map lowerByte name) as ->.
  { rewrite map_map. apply map_ext. exact L. }
  assert (matchesPattern (map f name) <-> matchesPattern name) as ->;
    [|reflexivity].
  rewrite <- !validPattern_iff.
  assert (forall l, forallb validChar (map f l) = forallb validChar l) as F.
  { induction l as [|x l IH]; [reflexivity|].
    cbn [map forallb]. now rewrite V, IH. }
  unfold validPattern_MatchString.
  destruct name as [|b name]; [reflexivity|].
  change (map f (b :: name)) with (f b :: map f name).
  change (f b :: map f name) with (map f (b :: name)) at 2.
  now rewrite F.
Qed.


(** X9: a name is refused as soon as one of the reserved words occurs
    anywhere inside it in any mix of cases, also when it is the name of no
    system schema ([EcoSystem], [SYSTEM], [my_mysql_app]); for a name of
    ASCII characters the error is the not-allowed one, whatever else is
    wrong with the name. *)
Theorem reserved_word_anywhere_is_refused
        (before word after r : bytes) :
  In r reserved ->
  map lowerByte word = r ->
  validateDatabaseName (before ++ word ++ after) <> None /\
  (isASCII (before ++ word ++ after) = true ->
   validateDatabaseName (before ++ word ++ after) =
   Some (NotAllowed (before ++ word ++ after))).
Proof.
  intros Hr Hw. split.
  - rewrite validateDatabaseName_None. intros [_ R].
    apply (R r Hr). exists (map lowerByte before), (map lowerByte after).
    now rewrite !map_app, Hw.
  - intros A. unfold validateDatabaseName, ToLower. rewrite A.
    assert (eqb (before ++ word ++ after) [] = false) as ->.
    { destruct (eqb (before ++ word ++ after) []) eqn:E; [|reflexivity].
      apply eqb_eq in E. apply app_eq_nil in E as [_ E].
      apply app_eq_nil in E as [E _]. subst word.
      simpl in Hw. subst r. simpl in Hr.
      destruct Hr as [H | [H | [H | [H | []]]]]; discriminate H. }
    assert (Contains (map lowerByte (before ++ word ++ after)) r = true) as C.
    { apply Contains_iff.
      exists (map lowerByte before), (map lowerByte after).
      now rewrite !map_app, Hw. }
    simpl in Hr. destruct Hr as [<- | [<- | [<- | [<- | []]]]];
      rewrite C; rewrite ?orb_true_r; reflexivity.
Qed.

Lemma patternChar_plain (b : byte) :
  patternChar b ->
  b <> "`"%byte /\ b <> x00 /\ b <> " "%byte /\ b <> ";"%byte /\
  b <> "'"%byte /\ b <> x22 /\ b <> "\"%byte.
Proof.
  forget_tables.
  intros H. apply validChar_iff in H.
  destruct b; try discriminate H; repeat split; discriminate.
Qed.

(** X10: a name that passes validation can be put between backticks as it
    is: it holds no backtick, quote, backslash, blank, semicolon or NUL, so
    the identifier read back from the CREATE statement, from after the
    opening backtick to the next one, is the name itself and the statement
    ends right there. *)
Theorem valid_name_is_safe_to_quote (name : bytes) :
  validateDatabaseName name = None ->
  Forall (fun b => b <> "`"%byte /\ b <> x00 /\ b <> " "%byte /\
                   b <> ";"%byte /\ b <> "'"%byte /\ b <> x22 /\
                   b <> "\"%byte) name /\
  exists opening,
    createQuery name = opening ++ name ++ str "`" /\
    opening = str "CREATE DATABASE `" /\
    takeWhile (fun b => negb (Byte.eqb b "`")) (name ++ str "`") = name.
Proof.
  intros H. apply validateDatabaseName_None in H as [[_ P] _].
  assert (Forall (fun b => b <> "`"%byte /\ b <> x00 /\ b <> " "%byte /\
                   b <> ";"%byte /\ b <> "'"%byte /\ b <> x22 /\
                   b <> "\"%byte) name) as F.
  { eapply Forall_impl; [|exact P]. intros b. apply patternChar_plain. }
  split; [exact F|].
  exists (str "CREATE DATABASE `"). split; [reflexivity|].
  split; [reflexivity|].
  apply takeWhile_app_stop; [|reflexivity].
  apply forallb_forall. intros b Hb.
  rewrite Forall_forall in F. destruct (F b Hb) as [N _].
  apply negb_true_iff. destruct (Byte.eqb b "`") eqn:E; [|reflexivity].
  apply byte_dec_bl in E. contradiction.
Qed.

(** *** More on ensureDatabaseExists *)

Lemma adminOps_app (t1 t2 : list Event) :
  adminOps (t1 ++ t2) = adminOps t1 ++ adminOps t2.
Proof. apply flat_map_app. Qed.

Lemma adminOps_admin (ops : list AdminOp) : adminOps (map EvAdmin ops) = ops.
Proof.
  induction ops as [|op ops IH]; [reflexivity|].
  simpl. now rewrite IH.
Qed.

Lemma writesTo_admin (p : Peer) (ops : list AdminOp) :
  writesTo p (map EvAdmin ops) = [].
Proof.
  induction ops as [|op ops IH]; [reflexivity|]. exact IH.
Qed.

(** One call of the gate for a name that passes validation: what it
    returns and which operations it performs on its administrative
    connection, by the upstream's answers. *)
Lemma ensureDatabaseExists_run (config : Config) (name : bytes) (w : World) :
  validateDatabaseName name = None ->
  exists r ops w',
    ensureDatabaseExists config name w = (r, w') /\
    clientConn w' = clientConn w /\ mysqlConn w' = mysqlConn w /\
    dialFails w' = dialFails w /\ adminReplies w' = adminReplies w /\
    adminCalls w' = S (adminCalls w) /\
    trace w' = trace w ++ map EvAdmin ops /\
    let reply := adminReplies w (adminCalls w) in
    (openFails reply = true /\ r = Some ConnectFailed /\ ops = [SqlOpen]) \/
    (openFails reply = false /\
     ((pingFails reply = true /\ r = Some PingFailed /\
       ops = [SqlOpen; Ping; Close]) \/
      (pingFails reply = false /\
       ((existsCount reply = None /\ r = Some CheckFailed /\
         ops = [SqlOpen; Ping; QueryExists name; Close]) \/
        (exists k, existsCount reply = Some k /\ k <> 0%Z /\ r = None /\
                   ops = [SqlOpen; Ping; QueryExists name; Close]) \/
        (existsCount reply = Some 0%Z /\
         ops = [SqlOpen; Ping; QueryExists name;
                Exec (createQuery name); Close] /\
         ((createFails reply = true /\ r = Some (CreateFailed name)) \/
          (createFails reply = false /\ r = None))))))).
Proof.
  intros V. unfold ensureDatabaseExists. rewrite V.
  destruct (adminReplies w (adminCalls w)) as [o pg cnt cr] eqn:R.
  cbn [openFails pingFails existsCount createFails].
  destruct o.
  { exists (Some ConnectFailed), [SqlOpen]. eexists.
    split; [reflexivity|]. cbn. repeat split. left. auto. }
  destruct pg.
  { exists (Some PingFailed), [SqlOpen; Ping; Close]. eexists.
    split; [reflexivity|]. cbn. rewrite <- !app_assoc. repeat split.
    right. split; [reflexivity|]. left. auto. }
  destruct cnt as [k|].
  2:{ exists (Some CheckFailed), [SqlOpen; Ping; QueryExists name; Close].
      eexists. split; [reflexivity|]. cbn. rewrite <- !app_assoc.
      repeat split. right. split; [reflexivity|]. right.
      split; [reflexivity|]. left. auto. }
  destruct (k =? 0)%Z eqn:K.
  - apply Z.eqb_eq in K. subst k. destruct cr.
    + exists (Some (CreateFailed name)),
        [SqlOpen; Ping; QueryExists name; Exec (createQuery name); Close].
      eexists. split; [reflexivity|]. cbn. rewrite <- !app_assoc.
      repeat split. right. split; [reflexivity|]. right.
      split; [reflexivity|]. right. right. auto.
    + exists None,
        [SqlOpen; Ping; QueryExists name; Exec (createQuery name); Close].
      eexists. split; [reflexivity|]. cbn. rewrite <- !app_assoc.
      repeat split. right. split; [reflexivity|]. right.
      split; [reflexivity|]. right. right. auto.
  - apply Z.eqb_neq in K.
    exists None, [SqlOpen; Ping; QueryExists name; Close].
    eexists. split; [reflexivity|]. cbn. rewrite <- !app_assoc.
    repeat split. right. split; [reflexivity|]. right.
    split; [reflexivity|]. right. left. exists k. auto.
Qed.

Lemma ensureDatabaseExists_refused (config : Config) (name : bytes)
      (w : World) :
  validateDatabaseName name <> None ->
  exists why, ensureDatabaseExists config name w = (Some (InvalidName why), w).
Proof.
  intros V. unfold ensureDatabaseExists.
  destruct (validateDatabaseName name) as [why|]; [eauto | congruence].
Qed.

Lemma admin_ops_unique (t : list Event) (ops ops' : list AdminOp) :
  t ++ map EvAdmin ops = t ++ map EvAdmin ops' -> ops = ops'.
Proof.
  intros H. apply app_inv_head in H.
  apply (f_equal adminOps) in H. now rewrite !adminOps_admin in H.
Qed.

(** X11: one call of the gate opens at most one [database/sql] handle and
    leaves none unclosed: for a refused name no call of the package is
    made and the world is as it was; otherwise [sql.Open] is called once
    and, unless that call failed, the calls on the handle are the liveness
    probe, then nothing more, the existence query, or the existence query
    followed by the one [CREATE DATABASE] statement for that name, and
    last the one [Close].  Success is reported only after the existence
    query.  (The calls are those the code makes on the handle; how many
    network connections the package opens to serve them is not part of
    the model.) *)
Theorem admin_connection_is_closed
        (config : Config) (name : bytes) (w w' : World)
        (r : option GateError) :
  ensureDatabaseExists config name w = (r, w') ->
  exists ops,
    trace w' = trace w ++ map EvAdmin ops /\
    (validateDatabaseName name <> None -> ops = [] /\ w' = w) /\
    (validateDatabaseName name = None ->
     adminCalls w' = S (adminCalls w) /\
     ((ops = [SqlOpen] /\ r = Some ConnectFailed) \/
      exists between,
        ops = SqlOpen :: Ping :: between ++ [Close] /\
        (between = [] \/ between = [QueryExists name] \/
         between = [QueryExists name; Exec (createQuery name)]) /\
        (r = None -> between <> []))).
Proof.
  intros E.
  destruct (validateDatabaseName name) as [why|] eqn:V.
  - destruct (ensureDatabaseExists_refused config name w) as [why' R];
      [congruence|].
    rewrite R in E. injection E as <- <-.
    exists []. split; [now rewrite app_nil_r|].
    split; [auto | discriminate].
  - destruct (ensureDatabaseExists_run config name w V)
      as (r0 & ops & w0 & R & _ & _ & _ & _ & C & T & Cases).
    rewrite R in E. injection E as <- <-.
    exists ops. split; [exact T|]. split; [congruence|].
    intros _. split; [exact C|].
    destruct Cases as [(_ & -> & ->) |
      (_ & [(_ & -> & ->) |
            (_ & [(_ & -> & ->) | [(k & _ & _ & _ & ->) | (_ & -> & _)]])])].
    + left. auto.
    + right. exists []. simpl. split; [reflexivity|].
      split; [auto | discriminate].
    + right. exists [QueryExists name]. simpl. split; [reflexivity|].
      split; [auto | discriminate].
    + right. exists [QueryExists name]. simpl. split; [reflexivity|].
      split; [auto | discriminate].
    + right. exists [QueryExists name; Exec (createQuery name)]. simpl.
      split; [reflexivity|]. split; [auto | discriminate].
Qed.

(** X12: the gate creates a schema only when it is told that the schema is
    absent: a statement is executed only for a name that passed validation,
    after the existence query for that name has answered 0, and it is the
    CREATE statement for exactly that name; and the gate reports success
    exactly when the upstream was reachable and the schema either existed
    already or was created. *)
Theorem create_only_when_absent
        (config : Config) (name : bytes) (w w' : World)
        (r : option GateError) (ops : list AdminOp) :
  ensureDatabaseExists config name w = (r, w') ->
  trace w' = trace w ++ map EvAdmin ops ->
  let reply := adminReplies w (adminCalls w) in
  (forall statement,
      In (Exec statement) ops ->
      statement = createQuery name /\
      validateDatabaseName name = None /\
      existsCount reply = Some 0%Z /\
      In (QueryExists name) ops) /\
  (r = None <->
   validateDatabaseName name = None /\
   openFails reply = false /\ pingFails reply = false /\
   exists k, existsCount reply = Some k /\
             (k = 0%Z -> createFails reply = false)).
Proof.
  intros E T reply.
  destruct (validateDatabaseName name) as [why|] eqn:V.
  - destruct (ensureDatabaseExists_refused config name w) as [why' R];
      [congruence|].
    rewrite R in E. injection E as <- <-.
    assert (ops = []) as ->.
    { apply (admin_ops_unique (trace w)). now rewrite <- T, app_nil_r. }
    split; [intros statement []|].
    split; [discriminate | intros [H _]; discriminate H].
  - destruct (ensureDatabaseExists_run config name w V)
      as (r0 & ops0 & w0 & R & _ & _ & _ & _ & _ & T0 & Cases).
    rewrite R in E. injection E as <- <-.
    assert (ops = ops0) as ->
        by (apply (admin_ops_unique (trace w)); congruence).
    fold reply in Cases.
    destruct Cases as [(O & -> & ->) |
      (O & [(P & -> & ->) |
            (P & [(C & -> & ->) |
                  [(k & C & K & -> & ->) | (C & -> & Cr)]])])].
    + split.
      * intros statement [H | []]. discriminate H.
      * split; [discriminate | intros (_ & H & _); congruence].
    + split.
      * intros statement [H | [H | [H | []]]]; discriminate H.
      * split; [discriminate | intros (_ & _ & H & _); congruence].
    + split.
      * intros statement [H | [H | [H | [H | []]]]]; discriminate H.
      * split; [discriminate|].
        intros (_ & _ & _ & k & H & _). congruence.
    + split.
      * intros statement [H | [H | [H | [H | []]]]]; discriminate H.
      * split; [|reflexivity]. intros _. repeat split; try assumption.
        exists k. split; [assumption | intros H; contradiction].
    + split.
      * intros statement [H | [H | [H | [H | [H | []]]]]];
          try discriminate H.
        injection H as <-. repeat split; try assumption. simpl. auto.
      * destruct Cr as [(Cr & ->) | (Cr & ->)].
        -- split; [discriminate|].
           intros (_ & _ & _ & k & H & K). rewrite C in H.
           injection H as <-. specialize (K eq_refl). congruence.
        -- split; [|reflexivity]. intros _. repeat split; try assumption.
           exists 0%Z. auto.
Qed.

(** *** More on handleConnection *)

Lemma conn_Write_incoming (p q : Peer) (data : bytes) (w : World) :
  incoming (conn q (snd (conn_Write p data w))) = incoming (conn q w).
Proof.
  unfold conn_Write. destruct (writeFails (conn p w)); [destruct q; reflexivity|].
  destruct p, q; reflexivity.
Qed.

Lemma readFrom_inv (p : Peer) (timeout : Z) (w w' : World)
      (r : MySQLPacket + PacketError) :
  readFrom p timeout w = (r, w') ->
  trace w' = trace w /\
  readPacketWithTimeout (conn p w) timeout = (r, conn p w') /\
  forall q, q <> p -> conn q w' = conn q w.
Proof.
  unfold readFrom.
  destruct (readPacketWithTimeout (conn p w) timeout) as [r0 c].
  intros [= <- <-].
  split; [destruct p; reflexivity|].
  split; [destruct p; reflexivity|].
  intros q H. destruct p, q; solve [reflexivity | contradiction].
Qed.

(** The first half of the handshake, when it gets as far as the client's
    response. *)
Lemma greetingForwarded_ok (w w1 : World) (clientHandshake : MySQLPacket) :
  greetingForwarded w = (Some clientHandshake, w1) ->
  exists serverGreeting,
    wellFormed serverGreeting /\ wellFormed clientHandshake /\
    trace w1 = trace w ++ [EvDial; EvWrite Client (FullPacket serverGreeting)] /\
    concat (incoming (clientConn w)) =
      FullPacket clientHandshake ++ concat (incoming (clientConn w1)).
Proof.
  unfold greetingForwarded.
  destruct (dialFails (emit EvDial w)); [discriminate|].
  destruct (readFrom Upstream 0 (emit EvDial w)) as [[g|e] w2] eqn:R1;
    [|discriminate].
  apply readFrom_inv in R1 as (T1 & P1 & O1).
  unfold writePacket.
  pose proof (conn_Write_trace Client (FullPacket g) w2) as T2.
  pose proof (conn_Write_incoming Client Client (FullPacket g) w2) as I2.
  destruct (conn_Write Client (FullPacket g) w2) as [[|] w3];
    [discriminate|]. cbn [snd] in T2, I2.
  destruct (readFrom Client 0 w3) as [[hs|e] w4] eqn:R2; [|discriminate].
  apply readFrom_inv in R2 as (T3 & P3 & _).
  intros [= <- <-]. exists g.
  split; [now apply readPacket_wellFormed in P1|].
  split; [now apply readPacket_wellFormed in P3|].
  split.
  - rewrite T3, T2, T1. cbn [emit trace]. now rewrite <- app_assoc.
  - apply readPacket_consumes in P3 as (C & _). cbn [conn] in C, I2.
    rewrite <- C, I2.
    specialize (O1 Client ltac:(discriminate)). cbn [conn] in O1.
    now rewrite O1.
Qed.

(** The gate as [handshakeGated] calls it: not at all for an empty name. *)
Lemma handshake_gate_passed (config : Config) (name : bytes) (w w2 : World) :
  (if negb (eqb name []) then ensureDatabaseExists config name w
   else (None, w)) = (None, w2) ->
  exists ops,
    trace w2 = trace w ++ map EvAdmin ops /\
    clientConn w2 = clientConn w /\
    (name = [] /\ ops = [] \/
     name <> [] /\ validateDatabaseName name = None /\
     exists earlier, ops = earlier ++ [Close]).
Proof.
  destruct (eqb name []) eqn:N; cbn [negb].
  - apply eqb_eq in N. intros [= <-]. exists [].
    rewrite app_nil_r. auto.
  - intros E.
    assert (name <> []) as Hne
        by (intros ->; discriminate N).
    destruct (validateDatabaseName name) as [why|] eqn:V.
    + destruct (ensureDatabaseExists_refused config name w) as [why' R];
        [congruence|].
      rewrite R in E. discriminate.
    + destruct (ensureDatabaseExists_run config name w V)
        as (r0 & ops & w0 & R & C & _ & _ & _ & _ & T & Cases).
      rewrite R in E. injection E as -> ->.
      exists ops. split; [exact T|]. split; [exact C|]. right.
      split; [exact Hne|]. split; [reflexivity|].
      destruct Cases as [(_ & H & _) |
        (_ & [(_ & H & _) |
              (_ & [(_ & H & _) | [(k & _ & _ & _ & ->) | (_ & -> & _)]])])];
        try discriminate H.
      * now exists [SqlOpen; Ping; QueryExists name].
      * now exists [SqlOpen; Ping; QueryExists name; Exec (createQuery name)].
Qed.

(** The first half of the handshake again, with what it takes off the
    upstream's stream. *)
Lemma greetingForwarded_streams
      (w w1 : World) (clientHandshake : MySQLPacket) :
  greetingForwarded w = (Some clientHandshake, w1) ->
  exists serverGreeting,
    wellFormed serverGreeting /\ wellFormed clientHandshake /\
    trace w1 = trace w ++ [EvDial; EvWrite Client (FullPacket serverGreeting)] /\
    concat (incoming (clientConn w)) =
      FullPacket clientHandshake ++ concat (incoming (clientConn w1)) /\
    concat (incoming (mysqlConn w)) =
      FullPacket serverGreeting ++ concat (incoming (mysqlConn w1)).
Proof.
  unfold greetingForwarded.
  destruct (dialFails (emit EvDial w)); [discriminate|].
  destruct (readFrom Upstream 0 (emit EvDial w)) as [[g|e] w2] eqn:R1;
    [|discriminate].
  apply readFrom_inv in R1 as (T1 & P1 & O1).
  unfold writePacket.
  pose proof (conn_Write_trace Client (FullPacket g) w2) as T2.
  pose proof (conn_Write_incoming Client Client (FullPacket g) w2) as I2.
  pose proof (conn_Write_incoming Client Upstream (FullPacket g) w2) as J2.
  destruct (conn_Write Client (FullPacket g) w2) as [[|] w3];
    [discriminate|]. cbn [snd] in T2, I2, J2.
  destruct (readFrom Client 0 w3) as [[hs|e] w4] eqn:R2; [|discriminate].
  apply readFrom_inv in R2 as (T3 & P3 & O3).
  intros [= <- <-]. exists g.
  split; [now apply readPacket_wellFormed in P1|].
  split; [now apply readPacket_wellFormed in P3|].
  split; [|split].
  - rewrite T3, T2, T1. cbn [emit trace]. now rewrite <- app_assoc.
  - apply readPacket_consumes in P3 as (C & _). cbn [conn] in C, I2.
    rewrite <- C, I2.
    specialize (O1 Client ltac:(discriminate)). cbn [conn] in O1.
    now rewrite O1.
  - apply readPacket_consumes in P1 as (C & _).
    cbn [conn emit mysqlConn] in C, J2.
    specialize (O3 Upstream ltac:(discriminate)). cbn [conn] in O3.
    now rewrite C, O3, J2.
Qed.

(** The gate as [handshakeGated] calls it leaves the upstream's connection
    alone, whatever it returns. *)
Lemma handshake_gate_upstream
      (config : Config) (name : bytes) (w w2 : World)
      (r : option GateError) :
  (if negb (eqb name []) then ensureDatabaseExists config name w
   else (None, w)) = (r, w2) ->
  mysqlConn w2 = mysqlConn w.
Proof.
  destruct (negb (eqb name [])).
  - intros E. pose proof (ensureDatabaseExists_frame config name w) as F.
    rewrite E in F. cbn [snd] in F. tauto.
  - now intros [= _ <-].
Qed.

Lemma handshakeGated_relaying
      (config : Config) (clientHandshake : MySQLPacket) (w1 w' : World) :
  handshakeGated config clientHandshake w1 = Ret (Relaying, w') ->
  exists name ops reply,
    parseDatabaseName clientHandshake = Ret name /\
    trace w' = trace w1 ++ map EvAdmin ops ++
               [EvWrite Upstream (FullPacket clientHandshake);
                EvWrite Client reply] /\
    ((exists serverResponse,
         wellFormed serverResponse /\ reply = FullPacket serverResponse /\
         concat (incoming (mysqlConn w1)) =
           reply ++ concat (incoming (mysqlConn w'))) \/
     (reply = [] /\
      forall p rest,
        wellFormed p ->
        concat (incoming (mysqlConn w1)) <> FullPacket p ++ rest)) /\
    incoming (clientConn w') = incoming (clientConn w1) /\
    (name = [] /\ ops = [] \/
     name <> [] /\ validateDatabaseName name = None /\
     exists earlier, ops = earlier ++ [Close]).
Proof.
  unfold handshakeGated.
  destruct (parseDatabaseName clientHandshake) as [name| |]; cbn [bind];
    try discriminate.
  destruct (if negb (eqb name []) then ensureDatabaseExists config name w1
            else (None, w1)) as [[e|] w2] eqn:G; [discriminate|].
  pose proof (handshake_gate_upstream _ _ _ _ _ G) as M2.
  apply handshake_gate_passed in G as (ops & T2 & C2 & Cases).
  unfold writePacket.
  pose proof (conn_Write_trace Upstream (FullPacket clientHandshake) w2) as T3.
  pose proof (conn_Write_incoming Upstream Client
                (FullPacket clientHandshake) w2) as I3.
  pose proof (conn_Write_incoming Upstream Upstream
                (FullPacket clientHandshake) w2) as J3.
  destruct (conn_Write Upstream (FullPacket clientHandshake) w2)
    as [[|] w3]; [discriminate|]. cbn [snd] in T3, I3, J3.
  destruct (readFrom Upstream handshakeTimeout w3) as [r w4] eqn:R.
  apply readFrom_inv in R as (T4 & P4 & O4).
  specialize (O4 Client ltac:(discriminate)). cbn [conn] in O4, I3, J3, P4.
  rewrite M2 in J3.
  assert (forall data w5 st,
             (let '(failed, w) := conn_Write Client data w4 in
              if failed then Ret (Failed, w) else Ret (st, w))
             = Ret (Relaying, w5) ->
             trace w5 = trace w1 ++ map EvAdmin ops ++
                        [EvWrite Upstream (FullPacket clientHandshake);
                         EvWrite Client data] /\
             incoming (clientConn w5) = incoming (clientConn w1) /\
             incoming (mysqlConn w5) = incoming (mysqlConn w4)) as Last.
  { intros data w5 st H.
    pose proof (conn_Write_trace Client data w4) as T5.
    pose proof (conn_Write_incoming Client Client data w4) as I5.
    pose proof (conn_Write_incoming Client Upstream data w4) as J5.
    destruct (conn_Write Client data w4) as [[|] w6]; [discriminate|].
    injection H as _ <-. cbn [snd conn] in T5, I5, J5. split; [|split].
    - rewrite T5, T4, T3, T2, <- !app_assoc. reflexivity.
    - now rewrite I5, O4, I3, C2.
    - exact J5. }
  destruct r as [serverResponse|e].
  - intros H. exists name, ops, (FullPacket serverResponse).
    split; [reflexivity|].
    assert ((let '(failed, w) :=
               conn_Write Client (FullPacket serverResponse) w4 in
             if failed then Ret (Failed, w) else Ret (Relaying, w))
            = Ret (Relaying, w')) as H'.
    { destruct (conn_Write Client (FullPacket serverResponse) w4)
        as [[|] w6]; [exact H|].
      rewrite slice_ok in H by lia. exact H. }
    apply Last in H' as (T & I & J).
    split; [exact T|]. split; [|split; [exact I | exact Cases]].
    left. exists serverResponse.
    split; [now apply readPacket_wellFormed in P4|].
    split; [reflexivity|].
    apply readPacket_consumes in P4 as (C & _).
    now rewrite J, <- J3.
  - intros H. exists name, ops, []. split; [reflexivity|].
    apply (Last [] w' Relaying) in H as (T & I & _).
    split; [exact T|]. split; [|split; [exact I | exact Cases]].
    right. split; [reflexivity|].
    intros p rest Wp Hp. rewrite <- J3 in Hp.
    destruct (readPacket_decodes (mysqlConn w3) p rest handshakeTimeout Wp Hp)
      as (c' & D & _).
    rewrite D in P4. discriminate.
Qed.


Lemma handshakeGated_upstream
      (config : Config) (clientHandshake : MySQLPacket) (w1 w' : World)
      (state : SessionState) :
  handshakeGated config clientHandshake w1 = Ret (state, w') ->
  writesTo Upstream (trace w') = writesTo Upstream (trace w1) \/
  writesTo Upstream (trace w') =
    writesTo Upstream (trace w1) ++ [FullPacket clientHandshake] /\
  exists name,
    parseDatabaseName clientHandshake = Ret name /\
    (name = [] \/ validateDatabaseName name = None).
Proof.
  unfold handshakeGated.
  destruct (parseDatabaseName clientHandshake) as [name| |]; cbn [bind];
    try discriminate.
  destruct (if negb (eqb name []) then ensureDatabaseExists config name w1
            else (None, w1)) as [[e|] w2] eqn:G.
  { intros [= _ <-]. left.
    destruct (negb (eqb name [])); [|congruence].
    pose proof (ensureDatabaseExists_frame config name w1) as (_ & _ & F).
    rewrite G in F. apply F. }
  apply handshake_gate_passed in G as (ops & T2 & _ & Cases).
  assert (writesTo Upstream (trace w2) = writesTo Upstream (trace w1)) as U2.
  { rewrite T2, writesTo_app, writesTo_admin. apply app_nil_r. }
  unfold writePacket.
  pose proof (conn_Write_upstream (FullPacket clientHandshake) w2)
    as (_ & U3 & _).
  destruct (conn_Write Upstream (FullPacket clientHandshake) w2)
    as [failed w3]. cbn [snd] in U3. rewrite U2 in U3.
  intros H. right. split.
  - destruct failed; [injection H as _ <-; exact U3|].
    destruct (readFrom Upstream handshakeTimeout w3) as [r w4] eqn:R.
    apply readFrom_inv in R as (T4 & _ & _).
    assert (forall data w5 st st',
               (let '(failed, w) := conn_Write Client data w4 in
                if failed then Ret (Failed, w) else Ret (st, w))
               = Ret (st', w5) ->
               writesTo Upstream (trace w5) =
               writesTo Upstream (trace w1) ++ [FullPacket clientHandshake])
      as Last.
    { intros data w5 st st' H5.
      pose proof (conn_Write_client data w4) as [U5 _].
      destruct (conn_Write Client data w4) as [[|] w6];
        injection H5 as _ <-; cbn [snd] in U5; now rewrite U5, T4. }
    destruct r as [serverResponse|e].
    + apply (Last (FullPacket serverResponse) w' Relaying state).
      destruct (conn_Write Client (FullPacket serverResponse) w4)
        as [[|] w6]; [exact H|].
      rewrite slice_ok in H by lia. exact H.
    + now apply (Last [] w' Relaying state).
  - exists name. split; [reflexivity|].
    destruct Cases as [(-> & _) | (_ & V & _)]; auto.
Qed.

(** X14: whatever becomes of the session, the handshake writes to the
    upstream at most once, and what it writes is the client's handshake
    response, a whole frame, passed on byte for byte; it is written only if
    the response names no schema or names one that passed validation. *)
Theorem upstream_sees_only_a_gated_handshake
        (config : Config) (w w' : World) (state : SessionState) :
  handleConnection config w = Ret (state, w') ->
  writesTo Upstream (trace w') = writesTo Upstream (trace w) \/
  exists clientHandshake name,
    writesTo Upstream (trace w') =
      writesTo Upstream (trace w) ++ [FullPacket clientHandshake] /\
    wellFormed clientHandshake /\
    (exists rest,
        concat (incoming (clientConn w)) = FullPacket clientHandshake ++ rest) /\
    parseDatabaseName clientHandshake = Ret name /\
    (name = [] \/ validateDatabaseName name = None).
Proof.
  unfold handleConnection.
  pose proof (greetingForwarded_upstream w) as U.
  destruct (greetingForwarded w) as [[hs|] w1] eqn:G; cbn [snd] in U.
  - intros H. apply handshakeGated_upstream in H as [H | (H & name & P & V)].
    + left. congruence.
    + right. exists hs, name.
      apply greetingForwarded_ok in G as (g & _ & Wh & _ & C).
      split; [congruence|]. split; [exact Wh|].
      split; [eauto | split; assumption].
  - intros [= _ <-]. now left.
Qed.

(** X15: [handleConnection] comes back from every session, whatever the two
    peers send: no index or slice of the handshake code is ever out of
    range. *)
Theorem handleConnection_returns (config : Config) (w : World) :
  exists state w', handleConnection config w = Ret (state, w').
Proof.
  unfold handleConnection.
  destruct (greetingForwarded w) as [[hs|] w1]; [|eauto].
  unfold handshakeGated. rewrite parseDatabaseName_walk. cbn [bind].
  destruct (if negb (eqb (handshakeSchema (Payload hs)) [])
            then ensureDatabaseExists config (handshakeSchema (Payload hs)) w1
            else (None, w1)) as [[e|] w2]; [eauto|].
  destruct (writePacket Upstream hs w2) as [[|] w3]; [eauto|].
  destruct (readFrom Upstream handshakeTimeout w3) as [[resp|e] w4].
  - destruct (writePacket Client resp w4) as [[|] w5]; [eauto|].
    rewrite slice_ok by lia. cbn [bind]. eauto.
  - destruct (writePacket Client okPacket w4) as [[|] w5]; eauto.
Qed.

(** *** More on forwardWithUseInterception *)

Lemma interceptUse_run (config : Config) (data : bytes) (w w1 : World) :
  interceptUse config data w = Ret w1 ->
  mysqlConn w1 = mysqlConn w /\
  exists ops,
    trace w1 = trace w ++ map EvAdmin ops /\
    (ops = [] \/
     isUseCommand data = Ret true /\
     exists name,
       extractDatabaseFromUseCommand data = Ret name /\ name <> [] /\
       validateDatabaseName name = None).
Proof.
  unfold interceptUse.
  assert (mysqlConn w = mysqlConn w /\
          exists ops, trace w = trace w ++ map EvAdmin ops /\
            (ops = [] \/
             isUseCommand data = Ret true /\
             exists name,
               extractDatabaseFromUseCommand data = Ret name /\ name <> [] /\
               validateDatabaseName name = None)) as Nothing.
  { split; [reflexivity|]. exists []. rewrite app_nil_r. auto. }
  destruct (isUseCommand data) as [[|]| |] eqn:U; cbn [bind];
    try discriminate; [|now intros [= <-]].
  destruct (extractDatabaseFromUseCommand data) as [name| |] eqn:X;
    cbn [bind]; try discriminate.
  destruct (eqb name []) eqn:N; cbn [negb]; [now intros [= <-]|].
  assert (name <> []) as Hne by (intros ->; discriminate N).
  destruct (validateDatabaseName name) as [why|] eqn:V.
  - destruct (ensureDatabaseExists_refused config name w) as [why' R];
      [congruence|].
    rewrite R. now intros [= <-].
  - destruct (ensureDatabaseExists_run config name w V)
      as (r0 & ops & w0 & R & _ & M & _ & _ & _ & T & _).
    rewrite R. intros [= <-]. split; [exact M|].
    exists ops. split; [exact T|]. right. split; [reflexivity|].
    exists name. auto.
Qed.

(** X16: what one pass of the loop does with a chunk, in order: whatever
    the gate does on its administrative connection comes first, and the
    write of the chunk to the upstream, unchanged, is the last thing; the
    gate does something only for a chunk classified as a USE command whose
    name is not empty and passes validation. *)
Theorem chunk_is_forwarded_last
        (config : Config) (data : bytes) (w : World) :
  exists failed w2 ops,
    forwardChunk config data w = Ret (failed, w2) /\
    trace w2 = trace w ++ map EvAdmin ops ++ [EvWrite Upstream data] /\
    (ops = [] \/
     isUseCommand data = Ret true /\
     exists name,
       extractDatabaseFromUseCommand data = Ret name /\ name <> [] /\
       validateDatabaseName name = None).
Proof.
  unfold forwardChunk.
  destruct (interceptUse_total config data w) as [w1 I]. rewrite I.
  cbn [bind]. apply interceptUse_run in I as (_ & ops & T & Cases).
  pose proof (conn_Write_trace Upstream data w1) as T2.
  destruct (conn_Write Upstream data w1) as [failed w2]. cbn [snd] in T2.
  exists failed, w2, ops. split; [reflexivity|].
  split; [now rewrite T2, T, <- app_assoc | exact Cases].
Qed.

Lemma conn_Read_end (c c' : Conn) (k : nat) (data : bytes)
      (r : option NetError) :
  conn_Read c k = ((data, r), c') ->
  incomingEnd c' = incomingEnd c /\
  match r with
  | Some e => e = incomingEnd c /\ incoming c' = []
  | None => True
  end.
Proof.
  unfold conn_Read. destruct (incoming c) as [|seg rest] eqn:I.
  - intros [= <- <- <-]. auto.
  - destruct (length seg <=? k); intros [= <- <- <-]; auto.
Qed.

(** How the loop can stop, for any budget of iterations. *)
Lemma forward_exit (config : Config) (fuel : nat) :
  forall (w w' : World) (exit : LoopExit),
    forwardWithUseInterception fuel config w = (exit, w') ->
    exit = OutOfFuel \/ exit = WriteFailed \/
    exit = ReadFailed (incomingEnd (clientConn w)) /\
    incoming (clientConn w') = [].
Proof.
  induction fuel as [|fuel IH]; intros w w' exit H.
  - injection H as <- <-. now left.
  - cbn [forwardWithUseInterception] in H.
    destruct (conn_Read (clientConn w) bufferSize) as [[data r] c] eqn:R.
    apply conn_Read_end in R as [E Cases].
    destruct r as [e|].
    + destruct Cases as [-> I]. injection H as <- <-.
      right. right. split; [reflexivity | exact I].
    + destruct (0 <? length data).
      * destruct (forwardChunk_forwards config data (setConn Client c w))
          as (failed & w2 & F & C & _).
        rewrite F in H. cbn [setConn clientConn] in C.
        destruct failed; [injection H as <- <-; now right; left|].
        apply IH in H. now rewrite C, E in H.
      * apply IH in H. cbn [setConn clientConn] in H. now rewrite E in H.
Qed.

Lemma relay_fuel_enough
      (config : Config) (fuel : nat) (w w' : World) (exit : LoopExit) :
  relayFuel w <= fuel ->
  forwardWithUseInterception fuel config w = (exit, w') ->
  exit = WriteFailed \/
  exit = ReadFailed (incomingEnd (clientConn w)) /\
  incoming (clientConn w') = [].
Proof.
  intros Hfuel H.
  pose proof (forward_terminates config fuel w) as N.
  rewrite H in N. cbn [fst] in N.
  apply forward_exit in H as [-> | H]; [|exact H].
  exfalso. apply N; [|reflexivity]. unfold relayFuel in Hfuel. lia.
Qed.

(** X17: given [relayFuel] iterations or more, the loop stops in one of the
    two ways the code has, and never on a panic: a write to the upstream
    failed, or the read from the client did, and then with the error that
    ends the client's stream and after every byte the client sent before it
    has been read. *)
Theorem relay_loop_ends
        (config : Config) (fuel : nat) (w w' : World) (exit : LoopExit) :
  relayFuel w <= fuel ->
  forwardWithUseInterception fuel config w = (exit, w') ->
  exit <> Crashed /\ exit <> OutOfFuel /\
  (exit = WriteFailed \/
   exit = ReadFailed (incomingEnd (clientConn w)) /\
   incoming (clientConn w') = []).
Proof.
  intros Hfuel H.
  destruct (relay_fuel_enough config fuel w w' exit Hfuel H) as [-> | [-> I]].
  - repeat split; try discriminate. now left.
  - repeat split; try discriminate. right. split; [reflexivity | exact I].
Qed.

Lemma forwardChunk_unfailing (config : Config) (data : bytes) (w : World) :
  writeFails (mysqlConn w) = [] ->
  exists w2,
    forwardChunk config data w = Ret (false, w2) /\
    writeFails (mysqlConn w2) = [] /\
    clientConn w2 = clientConn w /\
    writesTo Upstream (trace w2) = writesTo Upstream (trace w) ++ [data].
Proof.
  intros Hw. unfold forwardChunk.
  destruct (interceptUse_total config data w) as [w1 I]. rewrite I.
  cbn [bind].
  pose proof (interceptUse_run config data w w1 I) as (M & _).
  apply interceptUse_frame in I as [C F].
  pose proof (conn_Write_upstream data w1) as (C2 & U & _).
  unfold conn_Write in *. cbn [conn] in *. rewrite M, Hw in *.
  cbn [snd] in *. eexists. split; [reflexivity|].
  cbn [emit mysqlConn clientConn]. split; [congruence|].
  split; [congruence | now rewrite U, F].
Qed.

(** X18: as long as no write to the upstream fails, the loop passes on
    everything: when it stops, on the end of the client's stream, the bytes
    written to the upstream are all the bytes the client sent, in the same
    order. *)
Theorem relay_forwards_whole_stream
        (config : Config) (fuel : nat) (w w' : World) (exit : LoopExit) :
  writeFails (mysqlConn w) = [] ->
  relayFuel w <= fuel ->
  forwardWithUseInterception fuel config w = (exit, w') ->
  exit = ReadFailed (incomingEnd (clientConn w)) /\
  exists writes,
    writesTo Upstream (trace w') = writesTo Upstream (trace w) ++ writes /\
    concat writes = concat (incoming (clientConn w)).
Proof.
  intros Hw Hfuel H.
  assert (exit <> WriteFailed) as NW.
  { clear Hfuel. revert w w' exit Hw H.
    induction fuel as [|fuel IH]; intros w w' exit Hw H.
    - injection H as <- <-. discriminate.
    - cbn [forwardWithUseInterception] in H.
      destruct (conn_Read (clientConn w) bufferSize) as [[data [e|]] c];
        [injection H as <- <-; discriminate|].
      destruct (0 <? length data).
      + destruct (forwardChunk_unfailing config data (setConn Client c w) Hw)
          as (w2 & F & Hw2 & _).
        rewrite F in H. now apply IH in H.
      + now apply IH in H. }
  pose proof (relay_fuel_enough config fuel w w' exit Hfuel H)
    as [-> | [-> I]]; [congruence|].
  split; [reflexivity|].
  apply forward_stream in H as (_ & writes & W & _ & S).
  exists writes. split; [exact W|].
  rewrite S, I. cbn [concat]. now rewrite app_nil_r.
Qed.

(** *** The earlier revision of parseDatabaseName *)

Lemma parseDatabaseName_v1_walk (packet : MySQLPacket) :
  parseDatabaseName_v1 packet = Ret (firstTrailingField (Payload packet)).
Proof.
  forget_tables.
  unfold parseDatabaseName_v1, firstTrailingField.
  set (P := Payload packet).
  destruct (length P <? 32) eqn:Hshort; [reflexivity|].
  apply Nat.ltb_ge in Hshort.
  rewrite scan_spec by lia. cbn [bind].
  set (u := takeWhile notNul (skipn 32 P)).
  pose proof (skipn_scanned P 32) as HD. fold u in HD.
  destruct (dropWhile notNul (skipn 32 P)) as [|nul afterUser] eqn:ED.
  { apply skipn_nil_inv in HD.
    assert ((length P <=? 32 + length u + 1) = true) as ->
        by (apply Nat.leb_le; lia).
    reflexivity. }
  apply skipn_cons_inv in HD as (_ & HA & HL).
  replace (S (32 + length u)) with (32 + length u + 1) in HA by lia.
  destruct afterUser as [|n credentials].
  { assert ((length P <=? 32 + length u + 1) = true) as ->
        by (apply Nat.leb_le; simpl in HL; lia).
    reflexivity. }
  apply skipn_cons_inv in HA as (Hn & HC & HL2).
  assert ((length P <=? 32 + length u + 1) = false) as ->
      by (apply Nat.leb_gt; lia).
  assert ((32 + length u + 1 <? length P) = true) as ->
      by (apply Nat.ltb_lt; lia).
  rewrite Hn. cbn [bind].
  set (pos := 32 + length u + 1 + 1 + Byte.to_nat n).
  assert (length (skipn (Byte.to_nat n) credentials) =
          length credentials - Byte.to_nat n) as LT by apply length_skipn.
  destruct (length P <=? pos) eqn:Hpos.
  { apply Nat.leb_le in Hpos.
    destruct (skipn (Byte.to_nat n) credentials); [reflexivity|].
    simpl in LT. unfold pos in Hpos. lia. }
  apply Nat.leb_gt in Hpos.
  assert (skipn pos P = skipn (Byte.to_nat n) credentials) as HT.
  { rewrite <- HC, skipn_skipn. f_equal. unfold pos. lia. }
  rewrite scan_spec by lia. cbn [bind].
  rewrite slice_scanned by lia. rewrite HT.
  destruct (takeWhile notNul (skipn (Byte.to_nat n) credentials))
    as [|f0 f] eqn:EF; cbn [length].
  - now rewrite Nat.add_0_r, Nat.ltb_irrefl.
  - assert ((pos <? pos + S (length f)) = true) as ->
        by (apply Nat.ltb_lt; lia).
    reflexivity.
Qed.

(** X19: how the two revisions of the extractor differ: the earlier one
    returns the first trailing field as it is; the current one returns the
    same field when that field is not an authentication-method name and
    passes the client-attribute filter, and otherwise either nothing or the
    field that follows the tag.  Both return on every payload. *)
Theorem revisions_of_parseDatabaseName (packet : MySQLPacket) :
  exists earlier current,
    parseDatabaseName_v1 packet = Ret earlier /\
    parseDatabaseName packet = Ret current /\
    (isAuthMethod earlier = false -> current = acceptCandidate earlier) /\
    (current = [] \/ current = earlier \/ isAuthMethod earlier = true).
Proof.
  forget_tables.
  exists (firstTrailingField (Payload packet)),
         (handshakeSchema (Payload packet)).
  split; [apply parseDatabaseName_v1_walk|].
  split; [apply parseDatabaseName_walk|].
  assert (isAuthMethod (firstTrailingField (Payload packet)) = false ->
          handshakeSchema (Payload packet) =
          acceptCandidate (firstTrailingField (Payload packet))) as A.
  { unfold firstTrailingField, handshakeSchema.
    destruct (length (Payload packet) <? 32); [reflexivity|].
    destruct (dropWhile notNul (skipn 32 (Payload packet)))
      as [|nul [|n credentials]]; try reflexivity.
    intros H. rewrite H.
    destruct (length credentials <=? Byte.to_nat n) eqn:L; [|reflexivity].
    apply Nat.leb_le in L. rewrite skipn_all2 by assumption. reflexivity. }
  split; [exact A|].
  destruct (isAuthMethod (firstTrailingField (Payload packet))) eqn:E;
    [now right; right|].
  rewrite (A eq_refl). unfold acceptCandidate.
  destruct (looksLikeDatabase (firstTrailingField (Payload packet)));
    [right; now left | now left].
Qed.

(** *** Logging level and configuration *)

Lemma ToLower_idempotent (s : bytes) :
  isASCII s = true -> ToLower (ToLower s) = ToLower s.
Proof.
  intros A. unfold ToLower. rewrite A.
  assert (isASCII (map lowerByte s) = true) as ->.
  { unfold isASCII in *. rewrite forallb_forall in *.
    intros b Hb. apply in_map_iff in Hb as (x & <- & Hx).
    specialize (A x Hx). destruct x; solve [reflexivity | discriminate A]. }
  rewrite map_map. apply map_ext. apply lowerByte_idempotent.
Qed.

Lemma ToLower_upper (s : bytes) :
  isASCII s = true -> ToLower (map upperByte s) = ToLower s.
Proof.
  intros A. unfold ToLower. rewrite A.
  assert (isASCII (map upperByte s) = true) as ->.
  { unfold isASCII in *. rewrite forallb_forall in *.
    intros b Hb. apply in_map_iff in Hb as (x & <- & Hx).
    specialize (A x Hx). destruct x; solve [reflexivity | discriminate A]. }
  rewrite map_map. apply map_ext. apply lowerByte_upperByte.
Qed.

Lemma loadConfig_LogLevel
      (Sscanf_d : bytes -> option Z) (Getenv : bytes -> bytes) :
  LogLevel (loadConfig Sscanf_d Getenv) =
  if negb (eqb (Getenv (str "LOG_LEVEL")) [])
  then ToLower (Getenv (str "LOG_LEVEL"))
  else str "info".
Proof.
  unfold loadConfig. cbv zeta.
  destruct (negb (eqb (Getenv (str "LOG_LEVEL")) [])); [reflexivity|].
  destruct (negb (eqb (Getenv (str "MYSQL_PASSWORD")) []));
    destruct (negb (eqb (Getenv (str "MYSQL_USER")) []));
    destruct (negb (eqb (Getenv (str "MYSQL_PORT")) []));
    destruct (negb (eqb (Getenv (str "MYSQL_HOST")) []));
    destruct (negb (eqb (Getenv (str "PROXY_PORT")) []));
    destruct (Sscanf_d (Getenv (str "MYSQL_PORT")));
    destruct (Sscanf_d (Getenv (str "PROXY_PORT"))); reflexivity.
Qed.

(** X20: the logging level that the process ends up with, from the
    variable LOG_LEVEL through [loadConfig] and [setupLogging], does not
    depend on the case of the letters of the value, is the level
    [setupLogging] gives for the value itself, and is [InfoLevel] when the
    variable is not set or holds none of the seven words. *)
Theorem log_level_from_environment
        (Sscanf_d : bytes -> option Z) (Getenv : bytes -> bytes) :
  let value := Getenv (str "LOG_LEVEL") in
  isASCII value = true ->
  setupLogging (LogLevel (loadConfig Sscanf_d Getenv)) = setupLogging value /\
  setupLogging (map upperByte value) = setupLogging value /\
  (~ In (map lowerByte value)
      [str "debug"; str "info"; str "warn"; str "warning"; str "error";
       str "fatal"; str "panic"] ->
   setupLogging value = InfoLevel).
Proof.
  intros value A. split; [|split].
  - rewrite loadConfig_LogLevel. fold value.
    destruct (eqb value []) eqn:E; cbn [negb].
    + apply eqb_eq in E. rewrite E. reflexivity.
    + unfold setupLogging. now rewrite ToLower_idempotent.
  - unfold setupLogging. now rewrite ToLower_upper.
  - intros N. unfold setupLogging, ToLower. rewrite A.
    repeat match goal with
           | |- context [eqb ?a ?b] =>
               let E := fresh "E" in
               destruct (eqb a b) eqn:E;
               [apply eqb_eq in E; exfalso; apply N; rewrite E; simpl; tauto|]
           end.
    reflexivity.
Qed.


(** *** The relay loop, read by read *)

Lemma wholeFrame_iff (data : bytes) :
  wholeFrame data <-> wholeFrameb data = true.
Proof.
  forget_tables. split.
  - intros (len & sequence & payload & HL & HS & HP & ->).
    unfold encode. cbn [app wholeFrameb].
    rewrite !int_byteOf by (Z.div_mod_to_equations; lia).
    apply Z.eqb_eq. rewrite HP. Z.div_mod_to_equations; lia.
  - destruct data as [|h0 [|h1 [|h2 [|h3 body]]]]; try discriminate.
    cbn [wholeFrameb]. intros H. apply Z.eqb_eq in H.
    pose proof (packetLengthOf_value h0 h1 h2) as V.
    pose proof (int_range h0) as R0. pose proof (int_range h1) as R1.
    pose proof (int_range h2) as R2.
    exists (packetLengthOf h0 h1 h2), (int h3), body.
    split; [lia|]. split; [apply int_range|]. split; [lia|].
    symmetry. apply (encode_header h0 h1 h2 h3 body).
Qed.

Lemma wellFormed_wholeFrame (p : MySQLPacket) :
  wellFormed p -> wholeFrame (FullPacket p).
Proof.
  intros (HL & HS & HP & HF).
  exists (Length p), (SequenceID p), (Payload p). auto.
Qed.

(** What the loop has appended to the trace is never taken back. *)
Lemma forward_trace_extends (config : Config) (fuel : nat) :
  forall (w w' : World) (exit : LoopExit),
    forwardWithUseInterception fuel config w = (exit, w') ->
    exists later, trace w' = trace w ++ later.
Proof.
  induction fuel as [|fuel IH]; intros w w' exit H.
  - injection H as _ <-. exists []. now rewrite app_nil_r.
  - cbn [forwardWithUseInterception] in H.
    destruct (conn_Read (clientConn w) bufferSize) as [[data [e|]] c] eqn:R.
    + injection H as _ <-. exists []. cbn [setConn trace].
      now rewrite app_nil_r.
    + destruct (0 <? length data).
      * unfold forwardChunk in H.
        destruct (interceptUse_total config data (setConn Client c w))
          as [w1 I].
        rewrite I in H. cbn [bind] in H.
        apply interceptUse_run in I as (_ & ops & T & _).
        pose proof (conn_Write_trace Upstream data w1) as T2.
        destruct (conn_Write Upstream data w1) as [[|] w2]; cbn [snd] in T2.
        -- injection H as _ <-. eexists. rewrite T2, T.
           cbn [setConn trace]. rewrite <- app_assoc. reflexivity.
        -- apply IH in H as [later L]. eexists. rewrite L, T2, T.
           cbn [setConn trace]. rewrite <- !app_assoc. reflexivity.
      * apply IH in H as [later L]. exists later. exact L.
Qed.

(** The writes of the loop are the results of its reads, one write for
    each read that returned bytes, in the order of the reads; the loop
    stops after the write that fails. *)
Lemma forward_reads (config : Config) (fuel : nat) :
  forall (w w' : World) (exit : LoopExit),
    forwardWithUseInterception fuel config w = (exit, w') ->
    exists n,
      n <= length (filter nonEmpty (successiveReads fuel (clientConn w))) /\
      writesTo Upstream (trace w') =
        writesTo Upstream (trace w) ++
        firstn n (filter nonEmpty (successiveReads fuel (clientConn w))) /\
      (exit = WriteFailed -> 0 < n) /\
      (exit <> WriteFailed ->
       n = length (filter nonEmpty (successiveReads fuel (clientConn w)))).
Proof.
  induction fuel as [|fuel IH]; intros w w' exit H.
  - injection H as <- <-. exists 0. cbn. rewrite app_nil_r.
    split; [lia|]. split; [reflexivity|]. split; [discriminate | reflexivity].
  - cbn [forwardWithUseInterception] in H. cbn [successiveReads].
    destruct (conn_Read (clientConn w) bufferSize) as [[data [e|]] c] eqn:R.
    + injection H as <- <-. exists 0. cbn. rewrite app_nil_r.
      split; [lia|]. split; [reflexivity|].
      split; [discriminate | reflexivity].
    + cbn [filter]. change (nonEmpty data) with (0 <? length data).
      destruct (0 <? length data) eqn:Hpos.
      * destruct (forwardChunk_forwards config data (setConn Client c w))
          as (failed & w2 & F & C & U).
        rewrite F in H. cbn [setConn clientConn trace] in C, U.
        destruct failed.
        -- injection H as <- <-. exists 1. cbn [length firstn].
           split; [lia|]. split; [exact U|]. split; [lia | congruence].
        -- apply IH in H as (n & Hn & W & E1 & E2). rewrite C in *.
           exists (S n). cbn [length firstn]. split; [lia|].
           split; [rewrite W, U, <- app_assoc; reflexivity|].
           split; [lia|]. intros Hx. now rewrite (E2 Hx).
      * apply IH in H as (n & Hn & W & E1 & E2).
        cbn [setConn clientConn trace] in *.
        exists n. auto.
Qed.


(** C7: in the relaying phase, when the chunk that the loop reads from
    the client is classified as a USE command and the gate fails for its
    schema name, the failure is dropped.  The chunk's bytes are written to
    the upstream as they were read, right after what the gate did; the
    loop ends there only if that write itself fails, and otherwise goes on
    until a later write fails or the client's stream has ended, every
    byte that followed the chunk having been forwarded by then. *)
Theorem use_gate_failure_swallowed
        (config : Config) (w0 w1 w' : World) (data : bytes)
        (rest : list bytes) (name : bytes) (err : GateError) (fuel : nat)
        (exit : LoopExit) :
  incoming (clientConn w0) = data :: rest ->
  0 < length data <= bufferSize ->
  isUseCommand data = Ret true ->
  extractDatabaseFromUseCommand data = Ret name ->
  name <> [] ->
  ensureDatabaseExists config name
    (setConn Client (setIncoming (clientConn w0) rest) w0) = (Some err, w1) ->
  relayFuel w0 <= S fuel ->
  forwardWithUseInterception (S fuel) config w0 = (exit, w') ->
  let written := conn_Write Upstream data w1 in
  forwardChunk config data
    (setConn Client (setIncoming (clientConn w0) rest) w0) = Ret written /\
  trace (snd written) = trace w1 ++ [EvWrite Upstream data] /\
  (exists later, trace w' = trace w1 ++ EvWrite Upstream data :: later) /\
  (fst written = true -> exit = WriteFailed /\ w' = snd written) /\
  (fst written = false ->
   forwardWithUseInterception (S fuel) config w0 =
   forwardWithUseInterception fuel config (snd written) /\
   (exit = WriteFailed \/
    exit = ReadFailed (incomingEnd (clientConn w0)) /\
    incoming (clientConn w') = []) /\
   exists writes,
     writesTo Upstream (trace w') =
       writesTo Upstream (trace w0) ++ data :: writes /\
     concat rest = concat writes ++ concat (incoming (clientConn w'))).
Proof.
  intros I L U X N E Hfuel R written.
  assert (forwardChunk config data
            (setConn Client (setIncoming (clientConn w0) rest) w0)
          = Ret written) as F.
  { unfold forwardChunk, interceptUse. rewrite U. cbn [bind].
    rewrite X. cbn [bind].
    assert (eqb name [] = false) as ->
        by (destruct name; [congruence | reflexivity]).
    cbn [negb]. rewrite E. reflexivity. }
  assert (forwardWithUseInterception (S fuel) config w0 =
          if fst written then (WriteFailed, snd written)
          else forwardWithUseInterception fuel config (snd written)) as Step.
  { cbn [forwardWithUseInterception]. unfold conn_Read. rewrite I.
    assert ((length data <=? bufferSize) = true) as ->
        by (apply Nat.leb_le; lia).
    assert ((0 <? length data) = true) as -> by (apply Nat.ltb_lt; lia).
    rewrite F. destruct written as [failed w2]. reflexivity. }
  pose proof (conn_Write_trace Upstream data w1) as T.
  pose proof (conn_Write_upstream data w1) as (C2 & W2 & _).
  pose proof (ensureDatabaseExists_frame config name
                (setConn Client (setIncoming (clientConn w0) rest) w0)) as Fr.
  rewrite E in Fr. cbn [snd setConn clientConn trace] in Fr.
  destruct Fr as (C1 & _ & W1). specialize (W1 Upstream).
  fold written in T, C2, W2. rewrite Step in R.
  split; [exact F|]. split; [exact T|].
  destruct written as [[|] w2]; cbn [fst snd] in *.
  - injection R as <- <-.
    split; [exists []; exact T|].
    split; [auto | discriminate].
  - split.
    { apply forward_trace_extends in R as [later Hl].
      exists later. now rewrite Hl, T, <- app_assoc. }
    split; [discriminate|]. intros _. split; [exact Step|].
    assert (incoming (clientConn w2) = rest) as I2
        by (rewrite C2, C1; reflexivity).
    assert (incomingEnd (clientConn w2) = incomingEnd (clientConn w0)) as E2
        by (rewrite C2, C1; reflexivity).
    split.
    + rewrite <- E2. apply (relay_fuel_enough config fuel w2 w' exit); [|exact R].
      unfold relayFuel in *. rewrite I2. rewrite I in Hfuel.
      cbn [length concat] in Hfuel. rewrite length_app in Hfuel. lia.
    + apply forward_stream in R as (_ & writes & W & _ & S).
      exists writes. rewrite W, W2, W1, <- app_assoc, <- I2.
      split; [reflexivity | exact S].
Qed.

End Proxy.

(** ** The theorems at work on the sample sessions *)

Lemma keepBytes_not_USE (s : bytes) :
  isASCII s = false -> length s = 4 -> keepBytes s <> str "USE ".
Proof.
  intros A _ E. unfold keepBytes in E. subst s. discriminate A.
Qed.

(** A client that asks for [information_schema]: the session fails, the
    upstream has received nothing and no administrative connection was
    opened. *)
Lemma gate_failure_blocks_handshake_witness :
  exists w',
    handleConnection keepBytes sampleConfig reservedSchema = Ret (Failed, w') /\
    writesTo Upstream (trace w') = [] /\
    adminOps (trace w') = [].
Proof.
  edestruct (gate_failure_blocks_handshake keepBytes sampleConfig reservedSchema)
    as (H & _ & U).
  - reflexivity.
  - reflexivity.
  - discriminate.
  - reflexivity.
  - eexists. split; [exact H|]. split; [exact U | reflexivity].
Defined.

(** The name [mysql] is refused before any administrative connection. *)
Lemma schema_name_validation_witness :
  exists why,
    ensureDatabaseExists keepBytes sampleConfig (str "mysql") reservedSchema =
    (Some (InvalidName why), reservedSchema).
Proof.
  apply (proj2 (schema_name_validation keepBytes (str "mysql"))).
  intros [_ R]. apply (R (str "mysql")); [simpl; auto|].
  exists [], []. reflexivity.
Defined.

(** An empty payload gives the empty name. *)
Lemma parseDatabaseName_total_witness :
  exists name, parseDatabaseName (mkPacket 0 0 [] []) = Ret name /\ name = [].
Proof.
  destruct (parseDatabaseName_total (mkPacket 0 0 [] [])) as (name & P & S & _).
  exists name. split; [exact P|]. apply S. simpl. lia.
Defined.

(** User [root], empty credential block, [mysql_native_password], then
    [myapp_db]. *)
Lemma auth_method_tag_skipped_witness :
  parseDatabaseName
    (mkPacket 68 1
       (repeat x00 32 ++ str "root" ++ x00 :: x00 :: [] ++
        str "mysql_native_password" ++ x00 :: str "myapp_db" ++ [x00]) []) =
  Ret (str "myapp_db").
Proof.
  apply (auth_method_tag_skipped
           (mkPacket 68 1
              (repeat x00 32 ++ str "root" ++ x00 :: x00 :: [] ++
               str "mysql_native_password" ++ x00 :: str "myapp_db" ++ [x00]) [])
           (repeat x00 32) (str "root") [] (str "mysql_native_password")
           (str "myapp_db") [x00] x00).
  - reflexivity.
  - reflexivity.
  - reflexivity.
  - simpl. auto.
  - reflexivity.
  - right. exists []. reflexivity.
  - reflexivity.
Defined.

(** [USE sys;] after a 4-byte header is classified as a USE command. *)
Lemma use_command_classifier_witness :
  isUseCommand keepBytes useSys = Ret true /\
  extractDatabaseFromUseCommand useSys = Ret (str "sys").
Proof.
  destruct (use_command_classifier keepBytes keepBytes_not_USE useSys)
    as (_ & [_ M] & X & _).
  split.
  - apply M. unfold usePrefixAt4.
    exists x08, x00, x00, x00, "U"%byte, "S"%byte, "E"%byte, (str "sys;").
    repeat split; auto.
  - rewrite X. reflexivity.
Defined.

(** The gate refuses [sys]; [USE sys;] reaches the upstream all the same,
    and the loop ends only when the client's stream does. *)
Lemma use_gate_failure_swallowed_witness :
  exists w',
    forwardWithUseInterception keepBytes keepBytes 15 sampleConfig usingSys =
      (ReadFailed EOF, w') /\
    exists writes,
      writesTo Upstream (trace w') = useSys :: writes /\
      [] = concat writes ++ concat (incoming (clientConn w')).
Proof.
  pose (w' := snd (forwardWithUseInterception keepBytes keepBytes 15
                     sampleConfig usingSys)).
  assert (forwardWithUseInterception keepBytes keepBytes 15 sampleConfig
            usingSys = (ReadFailed EOF, w')) as R by (vm_compute; reflexivity).
  exists w'. split; [exact R|].
  destruct (use_gate_failure_swallowed keepBytes keepBytes sampleConfig
              usingSys (session [] EOF []) w' useSys [] (str "sys")
              (InvalidName (NotAllowed (str "sys"))) 14 (ReadFailed EOF))
    as (_ & _ & _ & _ & K).
  - reflexivity.
  - split; [apply Nat.ltb_lt | apply Nat.leb_le]; vm_compute; reflexivity.
  - reflexivity.
  - reflexivity.
  - discriminate.
  - reflexivity.
  - apply Nat.leb_le. vm_compute. reflexivity.
  - exact R.
  - destruct (K eq_refl) as (_ & _ & writes & W & S).
    exists writes. split; [exact W | exact S].
Defined.

(** A ping frame survives the round trip. *)
Lemma frame_round_trip_witness :
  roundTrip (mkPacket 1 0 [x0e] ping) = inl (mkPacket 1 0 [x0e] ping).
Proof.
  apply (frame_round_trip (mkPacket 1 0 [x0e] ping)).
  repeat split; try reflexivity; discriminate.
Defined.

(** C9 as stated fails: the payload's size equals the length field, and yet
    what [writePacket] sends for the packet cannot be read back, since
    [writePacket] sends [FullPacket] and builds no header. *)
Lemma round_trip_needs_FullPacket :
  Z.of_nat (length (Payload bareOkPacket)) = Length bareOkPacket /\
  roundTrip bareOkPacket = inr (HeaderReadFailed EOF) /\
  roundTrip bareOkPacket <> inl bareOkPacket.
Proof.
  repeat split. discriminate.
Qed.



(** A header that announces 5 bytes, followed by 2, on a stream that is then
    closed. *)
Lemma readPacket_short_stream_witness :
  fst (readPacketWithTimeout
         (delivering [[x05; x00; x00; x00; x03; "a"%byte]]) 0) =
  inr (PayloadReadFailed ErrUnexpectedEOF) /\
  fst (readPacketWithTimeout (delivering [[x05; x00]]) 0) =
  inr (HeaderReadFailed ErrUnexpectedEOF).
Proof.
  split.
  - apply (proj2 (readPacket_short_stream
                    (delivering [[x05; x00; x00; x00; x03; "a"%byte]]) 0)
             x05 x00 x00 x00 [x03; "a"%byte]); [reflexivity|].
    vm_compute. reflexivity.
  - apply (proj1 (readPacket_short_stream (delivering [[x05; x00]]) 0)).
    simpl. lia.
Defined.

(** Two pings on the stream: the first read takes the first. *)
Lemma readPacket_takes_one_frame_witness :
  concat (incoming (delivering [ping ++ ping])) =
  ping ++ concat (incoming (snd (readPacket (delivering [ping ++ ping])))).
Proof.
  destruct (readPacket_takes_one_frame (delivering [ping ++ ping])
              (snd (readPacket (delivering [ping ++ ping])))
              (mkPacket 1 0 [x0e] ping) 0 eq_refl) as (_ & C & _).
  exact C.
Defined.

(** User [root], empty credential block, then [myapp_db]. *)
Lemma schema_field_without_auth_tag_witness :
  parseDatabaseName
    (mkPacket 46 1
       (repeat x00 32 ++ str "root" ++ x00 :: x00 :: [] ++
        str "myapp_db" ++ [x00]) []) = Ret (str "myapp_db").
Proof.
  apply (schema_field_without_auth_tag
           (mkPacket 46 1
              (repeat x00 32 ++ str "root" ++ x00 :: x00 :: [] ++
               str "myapp_db" ++ [x00]) [])
           (repeat x00 32) (str "root") [] (str "myapp_db") [x00] x00).
  - reflexivity.
  - reflexivity.
  - reflexivity.
  - reflexivity.
  - simpl. intros [H | [H | [H | []]]]; discriminate H.
  - right. exists []. reflexivity.
  - reflexivity.
  - intros (pre & post & H).
    assert (Contains (str "myapp_db") (str "_client_") = true) as C
        by (apply Contains_iff; now exists pre, post).
    discriminate C.
  - simpl. intros H. repeat (destruct H as [H | H]; [discriminate H|]).
    exact H.
Defined.

(** The name found in the sample handshake has no NUL in it. *)
Lemma extracted_name_is_a_payload_field_witness :
  ~ In x00 (str "myapp_db").
Proof.
  apply (extracted_name_is_a_payload_field
           (mkPacket 46 1
              (repeat x00 32 ++ str "root" ++ x00 :: x00 :: [] ++
               str "myapp_db" ++ [x00]) [])
           (str "myapp_db")).
  - reflexivity.
  - discriminate.
Defined.

(** A response that ends inside the user name. *)
Lemma truncated_handshake_gives_no_name_witness :
  parseDatabaseName (mkPacket 34 1 (repeat x00 32 ++ str "ro") []) = Ret [].
Proof.
  apply (truncated_handshake_gives_no_name
           (mkPacket 34 1 (repeat x00 32 ++ str "ro") [])
           (repeat x00 32) (str "ro")).
  - reflexivity.
  - reflexivity.
  - left. reflexivity.
Defined.

(** [USE orders] sent as a query: the command byte 0x03 comes first. *)
Lemma command_byte_hides_use_witness :
  isUseCommand keepBytes (frameOf 0 (x03 :: str "USE orders")) = Ret false.
Proof.
  apply (command_byte_hides_use keepBytes keepBytes keepBytes_not_USE
           sampleConfig quietWorld x0b x00 x00 x00 x03 (str "USE orders"));
    discriminate.
Defined.

(** [USE orders] with no delimiter, followed in the same read by a ping. *)
Lemma classifier_ignores_frame_boundaries_witness :
  extractDatabaseFromUseCommand
    ([x0a; x00; x00; x00] ++ str "USE " ++ str "orders" ++ ping) =
  Ret (str "orders" ++ [x01]).
Proof.
  apply (classifier_ignores_frame_boundaries keepBytes
           ([x0a; x00; x00; x00] ++ str "USE ") ping (str "orders"));
    reflexivity.
Defined.

(** [EcoSystem] contains [Sys]. *)
Lemma reserved_word_anywhere_is_refused_witness :
  validateDatabaseName keepBytes (str "EcoSystem") =
  Some (NotAllowed (str "EcoSystem")).
Proof.
  apply (proj2 (reserved_word_anywhere_is_refused keepBytes
                  (str "Eco") (str "Sys") (str "tem") (str "sys")
                  ltac:(simpl; tauto) eq_refl)).
  reflexivity.
Defined.

(** [svc_a] between backticks. *)
Lemma valid_name_is_safe_to_quote_witness :
  createQuery (str "svc_a") = str "CREATE DATABASE `svc_a`".
Proof.
  destruct (valid_name_is_safe_to_quote keepBytes (str "svc_a") eq_refl)
    as (_ & opening & Q & O & _).
  rewrite Q, O. reflexivity.
Defined.


(** The gate called for [svc_a], which the upstream does not have. *)
Lemma admin_connection_is_closed_witness :
  exists ops,
    trace (snd (ensureDatabaseExists keepBytes sampleConfig (str "svc_a")
                  absentSchema)) = map EvAdmin ops /\
    last ops SqlOpen = Close.
Proof.
  destruct (admin_connection_is_closed keepBytes sampleConfig (str "svc_a")
              absentSchema
              (snd (ensureDatabaseExists keepBytes sampleConfig (str "svc_a")
                      absentSchema))
              None eq_refl) as (ops & T & _ & P).
  exists ops. split; [exact T|].
  destruct (P eq_refl) as (_ & [(_ & H) | (between & -> & _)]);
    [discriminate H|].
  change (SqlOpen :: Ping :: between ++ [Close])
    with ([SqlOpen; Ping] ++ between ++ [Close]).
  rewrite app_assoc. apply last_last.
Defined.

Lemma create_only_when_absent_witness :
  fst (ensureDatabaseExists keepBytes sampleConfig (str "svc_a") absentSchema)
  = None.
Proof.
  apply (proj2 (create_only_when_absent keepBytes sampleConfig (str "svc_a")
                  absentSchema
                  (snd (ensureDatabaseExists keepBytes sampleConfig
                          (str "svc_a") absentSchema))
                  (fst (ensureDatabaseExists keepBytes sampleConfig
                          (str "svc_a") absentSchema))
                  [SqlOpen; Ping; QueryExists (str "svc_a");
                   Exec (createQuery (str "svc_a")); Close]
                  eq_refl eq_refl)).
  repeat split. exists 0%Z. split; reflexivity.
Defined.


Lemma upstream_sees_only_a_gated_handshake_witness :
  exists w',
    handleConnection keepBytes sampleConfig freshSchema = Ret (Relaying, w') /\
    writesTo Upstream (trace w') = [handshakeOf (str "svc_a" ++ [x00])].
Proof.
  pose (w' := match handleConnection keepBytes sampleConfig freshSchema with
              | Ret (_, v) => v
              | _ => freshSchema
              end).
  assert (handleConnection keepBytes sampleConfig freshSchema
          = Ret (Relaying, w')) as H by (vm_compute; reflexivity).
  exists w'. split; [exact H|].
  destruct (upstream_sees_only_a_gated_handshake keepBytes sampleConfig
              freshSchema w' Relaying H) as [U | (hs & name & U & _)];
    vm_compute; reflexivity.
Defined.

Lemma relay_loop_ends_witness :
  fst (forwardWithUseInterception keepBytes keepBytes (relayFuel pingThenUse)
         sampleConfig pingThenUse) = ReadFailed EOF.
Proof.
  pose (r := forwardWithUseInterception keepBytes keepBytes
               (relayFuel pingThenUse) sampleConfig pingThenUse).
  assert (forwardWithUseInterception keepBytes keepBytes
            (relayFuel pingThenUse) sampleConfig pingThenUse
          = (fst r, snd r)) as H by (vm_compute; reflexivity).
  destruct (relay_loop_ends keepBytes keepBytes sampleConfig
              (relayFuel pingThenUse) pingThenUse (snd r) (fst r)
              (le_n _) H) as (_ & _ & [E | [E _]]).
  - vm_compute in E. discriminate E.
  - exact E.
Defined.

(** The ping and the USE command both reach the upstream, and [svc_b] is
    created in between. *)
Lemma relay_forwards_whole_stream_witness :
  exists writes,
    writesTo Upstream
      (trace (snd (forwardWithUseInterception keepBytes keepBytes
                     (relayFuel pingThenUse) sampleConfig pingThenUse)))
    = writes /\
    concat writes = ping ++ frameOf 0 (str "USE svc_b;").
Proof.
  pose (r := forwardWithUseInterception keepBytes keepBytes
               (relayFuel pingThenUse) sampleConfig pingThenUse).
  assert (forwardWithUseInterception keepBytes keepBytes
            (relayFuel pingThenUse) sampleConfig pingThenUse
          = (fst r, snd r)) as H by (vm_compute; reflexivity).
  destruct (relay_forwards_whole_stream keepBytes keepBytes sampleConfig
              (relayFuel pingThenUse) pingThenUse (snd r) (fst r)
              eq_refl (le_n _) H) as (_ & writes & W & C).
  exists writes. split; [exact W|].
  rewrite C. vm_compute. reflexivity.
Defined.

(** LOG_LEVEL=WARNING. *)
Lemma log_level_from_environment_witness :
  setupLogging keepBytes
    (LogLevel (loadConfig keepBytes (fun _ => None)
                 (fun name => if eqb name (str "LOG_LEVEL")
                              then str "WARNING" else []))) = WarnLevel.
Proof.
  destruct (log_level_from_environment keepBytes (fun _ => None)
              (fun name => if eqb name (str "LOG_LEVEL")
                           then str "WARNING" else [])
              eq_refl) as (H & _).
  rewrite H. reflexivity.
Defined.

(** Without a tag both revisions find [myapp_db]. *)
Lemma revisions_of_parseDatabaseName_witness :
  parseDatabaseName
    (mkPacket 46 1
       (repeat x00 32 ++ str "root" ++ x00 :: x00 :: [] ++
        str "myapp_db" ++ [x00]) []) =
  Ret (acceptCandidate (str "myapp_db")).
Proof.
  destruct (revisions_of_parseDatabaseName
              (mkPacket 46 1
                 (repeat x00 32 ++ str "root" ++ x00 :: x00 :: [] ++
                  str "myapp_db" ++ [x00]) []))
    as (earlier & current & E & C & A & _).
  vm_compute in E. injection E as <-.
  rewrite C. f_equal. apply A. reflexivity.
Defined.
